(** * efl::Poly: a stack-allocated, type-checked polymorphic container

    A shallow embedding of [include/Poly/Poly.hpp].  A [Poly<Base, Derived...>]
    owns raw storage [data_] and a tag [id_]; the tag is produced at compile
    time by the [IPoly] registry.  Containers live in a store indexed by
    address, so that the aliasing of [*this] and the argument of an
    assignment is part of the model.  What the templates accept or reject
    at compile time is part of it too: an instantiation that does not
    compile yields [IllFormed]. *)

From stdpp Require Import base decidable option list list_numbers gmap.

(** ** What the container knows about the payload types

    The container is a template over client types.  Of a client type it uses
    the traits queried in its [requires] clauses and [static_assert]s, and
    its copy and move constructors.  A payload of type [T] is represented by
    an abstract value of type [V]:
    - [copy_ctor T v] is the value of the object copy-constructed from a [T]
      of value [v] (the new-expression of the copying lambdas);
    - [move_ctor T v] is the pair of the value of the object
      move-constructed from it and of the value left behind in the source. *)
Record TypeEnv (Ty V : Type) : Type := {
  is_abstract : Ty -> bool;
  is_copy_constructible : Ty -> bool;
  is_copy_assignable : Ty -> bool;
  is_move_constructible : Ty -> bool;
  is_move_assignable : Ty -> bool;
  copy_ctor : Ty -> V -> V;
  move_ctor : Ty -> V -> V * V
}.
Arguments is_abstract {Ty V} _ _.
Arguments is_copy_constructible {Ty V} _ _.
Arguments is_copy_assignable {Ty V} _ _.
Arguments is_move_constructible {Ty V} _ _.
Arguments is_move_assignable {Ty V} _ _.
Arguments copy_ctor {Ty V} _ _ _.
Arguments move_ctor {Ty V} _ _ _.

(** ** namespace efl::H *)
Module H.
Section Registry.
Context {Ty : Type} `{EqDecision Ty} {V : Type}.
Variable E : TypeEnv Ty V.

(** [concept matches_any = (false || ... || std::same_as<T, UU>)],
    a binary left fold over the pack. *)
Definition matches_any (T : Ty) (UU : list Ty) : bool :=
  foldl (fun acc U => acc || bool_decide (T = U)) false UU.

Definition copyable (T : Ty) : bool :=
  is_copy_constructible E T && is_copy_assignable E T.

Definition movable (T : Ty) : bool :=
  is_move_constructible E T && is_move_assignable E T.

(** [(true && ... && copyable<TT>)] *)
Definition all_copyable (TT : list Ty) : bool :=
  foldl (fun acc T => acc && copyable T) true TT.

Definition all_movable (TT : list Ty) : bool :=
  foldl (fun acc T => acc && movable T) true TT.

(** [template <typename T, std::size_t I> struct PolyNode] *)
Record PolyNode : Type := mkPolyNode { Type_ : Ty; value : nat }.

(** [IdNode<I + 1> IGetID(TyNode<T>)]: this node's overload is viable for
    the argument [TyNode<U>] only when [U] is its own [T]. *)
Definition IGetID (n : PolyNode) (U : Ty) : option nat :=
  if decide (U = Type_ n) then Some (value n + 1) else None.

(** [TyNode<T> IGetTy(IdNode<I + 1>)] *)
Definition IGetTy (n : PolyNode) (J : nat) : option Ty :=
  if decide (J = value n + 1) then Some (Type_ n) else None.

(** [IPoly<std::index_sequence<II...>, TT...> : PolyNode<TT, II>...] with
    [II... = std::make_index_sequence<sizeof...(TT)>] (IPolyBase).  The
    indices are [std::size_t] constants bounded by the length of the pack,
    so no wrap-around is involved. *)
Definition IPoly (II : list nat) (TT : list Ty) : list PolyNode :=
  zip_with mkPolyNode TT II.

Definition IPolyBase (TT : list Ty) : list PolyNode :=
  IPoly (seq 0 (length TT)) TT.

(** Overload resolution over the set brought in by
    [using PolyNode<TT, II>::IGetID...]: the call is well-formed when
    exactly one overload is viable; with none, or with several (a type
    repeated in the pack), it does not compile. *)
Definition resolve {A : Type} (viable : list A) : option A :=
  match viable with
  | [a] => Some a
  | _ => None
  end.

(** [GetID<U>() = IGetID(TyNode<U>{})] *)
Definition GetID (nodes : list PolyNode) (U : Ty) : option nat :=
  resolve (omap (fun n => IGetID n U) nodes).

(** [GetTy<I>() = IGetTy(IdNode<I + 1>{})] *)
Definition GetTy (nodes : list PolyNode) (I : nat) : option Ty :=
  resolve (omap (fun n => IGetTy n (I + 1)) nodes).

(** The overload set of [IGetTy] itself, before [GetTy]'s [I + 1]. *)
Definition IGetTy_set (nodes : list PolyNode) (J : nat) : option Ty :=
  resolve (omap (fun n => IGetTy n J) nodes).
End Registry.
End H.

(** ** The store, and the effects of the container's member functions *)

(** Addresses of [Poly] objects. *)
Abbreviation loc := nat (only parsing).

(** How a member function can fail to produce a result. *)
Inductive Err : Type :=
| AssertFailed   (* POLY_ASSERT aborted the program *)
| IllFormed      (* the instantiation is rejected at compile time *)
| UB.            (* access outside the lifetime of an object *)

Inductive Res (S A : Type) : Type :=
| Ok (a : A) (s : S)
| Fail (e : Err).
Arguments Ok {S A} a s.
Arguments Fail {S A} e.

Section Poly.
Context {Ty : Type} `{EqDecision Ty} {V : Type}.
Variable E : TypeEnv Ty V.
(** [template <typename Base, std::derived_from<Base>...Derived>] *)
Variable Base : Ty.
Variable Derived : list Ty.
(** Whether [assert] is compiled out (the default [POLY_ASSERT]). *)
Variable NDEBUG : bool.

(** A [T*] or [const T*]: static pointee type, address ([None] is
    [nullptr]) and constness.  All pointers handed out by a container
    point at its own storage, so the address of the container stands for
    the address of [data_]. *)
Record Ptr : Type := mkPtr {
  ptr_ty : Ty;
  ptr_addr : option loc;
  ptr_const : bool
}.

(** [struct Poly]: [data_] is raw memory; what the model records of it is
    the object whose lifetime is currently running in it, if any (its byte
    layout, [H::PolyStorage], is not modelled).  [id_] is a [std::size_t]
    that only ever receives 0, an [ID<U>] or the [id_] of another
    container. *)
Record PolyRep : Type := mkPoly {
  data_ : option (Ty * V);
  id_ : nat
}.

(** Lifecycle steps, in program order: a write to [id_]; the end of a
    placement new-expression; a destructor call; the reuse of storage in
    which an object was still alive, whose destructor therefore never runs;
    and the call of a probing visitor. *)
Inductive Event : Type :=
| EvSetTag (l : loc) (k : nat)
| EvConstruct (l : loc) (T : Ty) (v : V)
| EvDestroy (l : loc) (T : Ty) (v : V)
| EvOverwrite (l : loc) (T : Ty) (v : V)
| EvCall (P : Ptr).

Record State : Type := mkState {
  heap : gmap loc PolyRep;
  trace : list Event
}.

Definition M (A : Type) : Type := State -> Res State A.

Definition ret {A} (a : A) : M A := fun s => Ok a s.
Definition bind {A B} (m : M A) (k : A -> M B) : M B :=
  fun s => match m s with
           | Ok a s' => k a s'
           | Fail e => Fail e
           end.
Definition throw {A} (e : Err) : M A := fun _ => Fail e.

Notation "x <- m ;; k" := (bind m (fun x => k))
  (at level 100, m at next level, right associativity).
Notation "m ;;; k" := (bind m (fun _ => k))
  (at level 100, right associativity).

Definition load (l : loc) : M PolyRep :=
  fun s => match heap s !! l with
           | Some r => Ok r s
           | None => Fail UB
           end.

Definition store (l : loc) (r : PolyRep) : M unit :=
  fun s => Ok tt (mkState (<[l := r]> (heap s)) (trace s)).

Definition emit (e : Event) : M unit :=
  fun s => Ok tt (mkState (heap s) (trace s ++ [e])).

(** Storage for a new [Poly] at [l] with its member initialisers
    [data_ {}] and [id_(k)]. *)
Definition alloc (l : loc) (k : nat) : M unit :=
  fun s => match heap s !! l with
           | Some _ => Fail UB
           | None => Ok tt (mkState (<[l := mkPoly None k]> (heap s))
                                    (trace s ++ [EvSetTag l k]))
           end.

Definition dealloc (l : loc) : M unit :=
  fun s => Ok tt (mkState (delete l (heap s)) (trace s)).

(** Read of [id_]. *)
Definition get_id (l : loc) : M nat :=
  r <- load l ;; ret (id_ r).

(** [this->id_ = k] *)
Definition set_id (l : loc) (k : nat) : M unit :=
  r <- load l ;;
  store l (mkPoly (data_ r) k) ;;;
  emit (EvSetTag l k).

(** [(void) new (data_.raw_) T{...}] with the constructed value [v]: the
    storage is reused for the new object.  (A new-expression of an
    abstract class type is ill-formed; that is decided where the
    expression is instantiated.) *)
Definition placement_new (l : loc) (T : Ty) (v : V) : M unit :=
  r <- load l ;;
  match data_ r with
  | Some (T', v') => emit (EvOverwrite l T' v')
  | None => ret tt
  end ;;;
  store l (mkPoly (Some (T, v)) (id_ r)) ;;;
  emit (EvConstruct l T v).

(** Read of the [T] object behind a pointer. *)
Definition deref (P : Ptr) : M V :=
  match ptr_addr P with
  | None => throw UB
  | Some l =>
      r <- load l ;;
      match data_ r with
      | Some (T, v) => if decide (T = ptr_ty P) then ret v else throw UB
      | None => throw UB
      end
  end.

(** Write of the [T] object behind a non-const pointer. *)
Definition assign_through (P : Ptr) (o : option V) : M unit :=
  if ptr_const P then throw IllFormed
  else
    match ptr_addr P with
    | None => throw UB
    | Some l =>
        r <- load l ;;
        store l (mkPoly (option_map (fun v => (ptr_ty P, v)) o) (id_ r))
    end.

(** [P->~T()] *)
Definition destroy_at (P : Ptr) : M unit :=
  v <- deref P ;;
  assign_through P None ;;;
  match ptr_addr P with
  | Some l => emit (EvDestroy l (ptr_ty P) v)
  | None => throw UB
  end.

(** ** Type tags *)

Definition types : list Ty := Base :: Derived.

(** [using BaseType = H::IPolyBase<Base, Derived...>] *)
Definition BaseType : list H.PolyNode := H.IPolyBase types.

(** [ID<T> = BaseType::template GetID<T>().value] *)
Definition ID (T : Ty) : option nat := H.GetID BaseType T.

(** [Size()] *)
Definition Size : nat := length Derived + 1.

(** ** Observers *)

Definition holdsAny (this : loc) : M bool :=
  k <- get_id this ;; ret (negb (k =? 0)).

Definition isEmpty (this : loc) : M bool :=
  k <- get_id this ;; ret (k =? 0).

Definition holdsType (T : Ty) (this : loc) : M bool :=
  if H.matches_any T types then
    match ID T with
    | Some k => tag <- get_id this ;; ret (tag =? k)
    | None => throw IllFormed
    end
  else throw IllFormed.

(** ** Dispatch *)

(** [getPtr()]; the flag selects the const overload. *)
Definition getPtr (cst : bool) (this : loc) : M Ptr :=
  k <- get_id this ;;
  if k =? 0 then ret (mkPtr Base None cst)
  else ret (mkPtr Base (Some this) cst).

(** [H::launder_cast<T>(from)] *)
Definition launder_cast (T : Ty) (from : Ptr) : Ptr :=
  mkPtr T (ptr_addr from) (ptr_const from).

(** A generic lambda [<typename T> (T* P) { ... }]: instantiating it at
    [T] either does not compile or gives a function of the pointer. *)
Definition Callback : Type := Ty -> option (Ptr -> M unit).

(** [visit_<T, Next...>(F)] and its base case [visit_<>(F)]; the flag
    selects the const overload. *)
Fixpoint visit_ (cst : bool) (TT : list Ty) (F : Callback) (this : loc)
  : M unit :=
  match TT with
  | [] => ret tt
  | T :: Next =>
      match ID T, F T with
      | Some k, Some f =>
          tag <- get_id this ;;
          if negb (k =? tag) then visit_ cst Next F this
          else P <- getPtr cst this ;; f (launder_cast T P)
      | _, _ => throw IllFormed
      end
  end.

(** Instantiating [visit_<TT...>(F)] instantiates [ID<T>] and [F] at every
    [T] of the pack, whichever branch is taken when it runs. *)
Definition instantiates (TT : list Ty) (F : Callback) : bool :=
  forallb (fun T => bool_decide (is_Some (ID T)) &&
                    bool_decide (is_Some (F T))) TT.

(** [visit(F)] (mutable and const overloads). *)
Definition visit (cst : bool) (F : Callback) (this : loc) : M unit :=
  if instantiates types F then
    e <- isEmpty this ;;
    if e then ret tt
    else visit_ cst types F this
  else throw IllFormed.

(** [[] <typename T> (T* P) { P->~T(); }] *)
Definition destroy_cb : Callback :=
  fun T => Some (fun P => destroy_at P).

Definition destroySelf (this : loc) : M unit :=
  visit false destroy_cb this ;;;
  set_id this 0.

(** ** Constructors and destructor *)

(** [constexpr Poly() = default], with [id_ = 0]. *)
Definition Poly_default (this : loc) : M unit :=
  alloc this 0.

(** The lambda of [Poly(const Poly&)]; an abstract [T] discards the
    new-expression ([if constexpr]). *)
Definition copy_ctor_cb (this : loc) : Callback :=
  fun T =>
    if negb (is_abstract E T) then
      if is_copy_constructible E T then
        Some (fun P => v <- deref P ;;
                       placement_new this T (copy_ctor E T v))
      else None
    else Some (fun _ => ret tt).

(** [Poly(const Poly& p) requires H::all_copyable<Derived...>] *)
Definition Poly_copy (this p : loc) : M unit :=
  if H.all_copyable E Derived then
    k <- get_id p ;;
    alloc this k ;;;
    visit true (copy_ctor_cb this) p
  else throw IllFormed.

(** The move-construction of the new object out of [*P]: the source stays
    alive, in its moved-from state. *)
Definition move_construct (this : loc) (T : Ty) (P : Ptr) : M unit :=
  v <- deref P ;;
  assign_through P (Some (snd (move_ctor E T v))) ;;;
  placement_new this T (fst (move_ctor E T v)).

(** The lambda of [Poly(Poly&&)]. *)
Definition move_ctor_cb (this : loc) : Callback :=
  fun T =>
    if negb (is_abstract E T) then
      if is_move_constructible E T then Some (move_construct this T)
      else None
    else Some (fun _ => ret tt).

(** [Poly(Poly&& p) noexcept requires H::all_movable<Derived...>] *)
Definition Poly_move (this p : loc) : M unit :=
  if H.all_movable E Derived then
    k <- get_id p ;;
    alloc this k ;;;
    visit false (move_ctor_cb this) p ;;;
    destroySelf p
  else throw IllFormed.

(** [Poly(const U& u)], [u] being the value of the argument. *)
Definition Poly_const_U (this : loc) (U : Ty) (u : V) : M unit :=
  if H.matches_any U types && H.copyable E U then
    match ID U with
    | Some k =>
        if negb (is_abstract E U) then      (* static_assert *)
          alloc this k ;;;
          placement_new this U (copy_ctor E U u)
        else throw IllFormed
    | None => throw IllFormed
    end
  else throw IllFormed.

(** [Poly(U&& u) noexcept] *)
Definition Poly_rvalue_U (this : loc) (U : Ty) (u : V) : M unit :=
  if H.matches_any U types && H.movable E U then
    match ID U with
    | Some k =>
        if negb (is_abstract E U) then      (* static_assert *)
          alloc this k ;;;
          placement_new this U (fst (move_ctor E U u))
        else throw IllFormed
    | None => throw IllFormed
    end
  else throw IllFormed.

(** [~Poly() { destroySelf(); }], after which the storage is gone. *)
Definition Poly_dtor (this : loc) : M unit :=
  destroySelf this ;;;
  dealloc this.

(** ** Assignment *)

(** The lambda of [operator=(const Poly&)]: no [if constexpr] here. *)
Definition copy_assign_cb (this : loc) : Callback :=
  fun T =>
    if negb (is_abstract E T) && is_copy_constructible E T then
      Some (fun P => v <- deref P ;;
                     placement_new this T (copy_ctor E T v))
    else None.

(** [Poly& operator=(const Poly& p)] *)
Definition assign_copy (this p : loc) : M unit :=
  if H.all_copyable E Derived then
    destroySelf this ;;;
    k <- get_id p ;;
    set_id this k ;;;
    visit true (copy_assign_cb this) p
  else throw IllFormed.

(** The lambda of [operator=(Poly&&)]. *)
Definition move_assign_cb (this : loc) : Callback :=
  fun T =>
    if negb (is_abstract E T) && is_move_constructible E T then
      Some (move_construct this T)
    else None.

(** [Poly& operator=(Poly&& p) noexcept] *)
Definition assign_move (this p : loc) : M unit :=
  if H.all_movable E Derived then
    destroySelf this ;;;
    k <- get_id p ;;
    set_id this k ;;;
    visit false (move_assign_cb this) p ;;;
    destroySelf p
  else throw IllFormed.

(** [Poly& operator=(const U& u)] *)
Definition assign_const_U (this : loc) (U : Ty) (u : V) : M unit :=
  if H.copyable E U && H.matches_any U types then
    match ID U with
    | Some k =>
        if negb (is_abstract E U) then      (* new-expression of U *)
          destroySelf this ;;;
          set_id this k ;;;
          placement_new this U (copy_ctor E U u)
        else throw IllFormed
    | None => throw IllFormed
    end
  else throw IllFormed.

(** [Poly& operator=(U&& u) noexcept] *)
Definition assign_rvalue_U (this : loc) (U : Ty) (u : V) : M unit :=
  if H.movable E U && H.matches_any U types then
    match ID U with
    | Some k =>
        if negb (is_abstract E U) then      (* new-expression of U *)
          destroySelf this ;;;
          set_id this k ;;;
          placement_new this U (fst (move_ctor E U u))
        else throw IllFormed
    | None => throw IllFormed
    end
  else throw IllFormed.

(** ** Mutators *)

(** [POLY_ASSERT(...)], by default [assert(...)]. *)
Definition POLY_ASSERT (cond : bool) : M unit :=
  if NDEBUG then ret tt
  else if cond then ret tt else throw AssertFailed.

(** [operator->()] (mutable and const overloads). *)
Definition operator_arrow (cst : bool) (this : loc) : M Ptr :=
  h <- holdsAny this ;;
  POLY_ASSERT h ;;;
  getPtr cst this.

Definition erase (this : loc) : M unit :=
  destroySelf this.

(** [std::swap(a, b)] of the standard library on two [Poly] objects:
    [Poly tmp(std::move(a)); a = std::move(b); b = std::move(tmp);] and
    the destruction of [tmp] at the end of the scope. *)
Definition std_swap (tmp a b : loc) : M unit :=
  Poly_move tmp a ;;;
  assign_move a b ;;;
  assign_move b tmp ;;;
  Poly_dtor tmp.

(** A visitor that only records the pointer it is called with. *)
Definition probe : Callback :=
  fun _ => Some (fun P => emit (EvCall P)).

(** ** The public interface as a whole *)

Inductive PublicOp : Type :=
| OpDefault (this : loc)
| OpCopy (this p : loc)
| OpMove (this p : loc)
| OpConstU (this : loc) (U : Ty) (u : V)
| OpRvalueU (this : loc) (U : Ty) (u : V)
| OpDtor (this : loc)
| OpAssignCopy (this p : loc)
| OpAssignMove (this p : loc)
| OpAssignConstU (this : loc) (U : Ty) (u : V)
| OpAssignRvalueU (this : loc) (U : Ty) (u : V)
| OpVisitProbe (cst : bool) (this : loc)
| OpArrow (cst : bool) (this : loc)
| OpErase (this : loc)
| OpHoldsType (T : Ty) (this : loc)
| OpHoldsAny (this : loc)
| OpIsEmpty (this : loc).

Definition discard {A} (m : M A) : M unit := _ <- m ;; ret tt.

Definition exec (op : PublicOp) : M unit :=
  match op with
  | OpDefault this => Poly_default this
  | OpCopy this p => Poly_copy this p
  | OpMove this p => Poly_move this p
  | OpConstU this U u => Poly_const_U this U u
  | OpRvalueU this U u => Poly_rvalue_U this U u
  | OpDtor this => Poly_dtor this
  | OpAssignCopy this p => assign_copy this p
  | OpAssignMove this p => assign_move this p
  | OpAssignConstU this U u => assign_const_U this U u
  | OpAssignRvalueU this U u => assign_rvalue_U this U u
  | OpVisitProbe cst this => visit cst probe this
  | OpArrow cst this => discard (operator_arrow cst this)
  | OpErase this => erase this
  | OpHoldsType T this => discard (holdsType T this)
  | OpHoldsAny this => discard (holdsAny this)
  | OpIsEmpty this => discard (isEmpty this)
  end.

(** ** The representation invariant

    A tag of 0 goes with storage that holds no live object; a nonzero tag
    goes with storage that holds one live object of the type the tag
    stands for.  No object of an abstract class type exists on its own. *)
Definition rep_ok (r : PolyRep) : Prop :=
  match data_ r with
  | None => id_ r = 0
  | Some (T, _) => ID T = Some (id_ r) /\ is_abstract E T = false
  end.

Definition heap_ok (m : gmap loc PolyRep) : Prop :=
  forall l r, m !! l = Some r -> rep_ok r.

Definition inv (s : State) : Prop := heap_ok (heap s).

(** The container at [l] holds a live object of the concrete type [T],
    of value [v], under the tag of [T]. *)
Definition holds (s : State) (l : loc) (T : Ty) (v : V) : Prop :=
  exists k, ID T = Some k /\ is_abstract E T = false /\
            heap s !! l = Some (mkPoly (Some (T, v)) k).

(** The container at [l] is empty. *)
Definition empty_at (s : State) (l : loc) : Prop :=
  heap s !! l = Some (mkPoly None 0).

(** Orders of the writes to storage and tag, on a trace.
    [tag_then_construct]: every construction in a container comes right
    after the write of a tag to that container.
    [construct_then_tag]: every write of a nonzero tag to a container
    comes right after a construction in that container.
    [destroy_then_reset]: every destruction in a container is followed at
    once by the reset of its tag to 0. *)
Fixpoint tag_then_construct (prev : option Event) (t : list Event) : bool :=
  match t with
  | [] => true
  | e :: t' =>
      match e with
      | EvConstruct l _ _ =>
          match prev with
          | Some (EvSetTag l' k) => bool_decide (l' = l) && negb (k =? 0)
          | _ => false
          end
      | _ => true
      end && tag_then_construct (Some e) t'
  end.

Fixpoint construct_then_tag (prev : option Event) (t : list Event) : bool :=
  match t with
  | [] => true
  | e :: t' =>
      match e with
      | EvSetTag l (S _) =>
          match prev with
          | Some (EvConstruct l' _ _) => bool_decide (l' = l)
          | _ => false
          end
      | _ => true
      end && construct_then_tag (Some e) t'
  end.

(** No storage is reused while the object in it is alive. *)
Definition no_overwrite (t : list Event) : bool :=
  forallb (fun e => match e with EvOverwrite _ _ _ => false | _ => true end) t.

Fixpoint destroy_then_reset (t : list Event) : bool :=
  match t with
  | [] => true
  | EvDestroy l _ _ :: t' =>
      match t' with
      | EvSetTag l' 0 :: _ => bool_decide (l' = l)
      | _ => false
      end && destroy_then_reset t'
  | _ :: t' => destroy_then_reset t'
  end.
(** ** Vocabulary for stating what an operation did *)

(** The destructor call that emptying the representation [r] at [l]
    makes. *)
Definition destroy_events (l : loc) (r : PolyRep) : list Event :=
  match data_ r with
  | Some (T, v) => [EvDestroy l T v]
  | None => []
  end.

(** The construction that filling [l] with the payload [d] makes. *)
Definition construct_events (l : loc) (d : option (Ty * V)) : list Event :=
  match d with
  | Some (T, v) => [EvConstruct l T v]
  | None => []
  end.

(** The payload copy-constructed from [d], move-constructed from [d], and
    the payload left behind by that move. *)
Definition copied (d : option (Ty * V)) : option (Ty * V) :=
  match d with
  | Some (T, v) => Some (T, copy_ctor E T v)
  | None => None
  end.

Definition moved_to (d : option (Ty * V)) : option (Ty * V) :=
  match d with
  | Some (T, v) => Some (T, fst (move_ctor E T v))
  | None => None
  end.

Definition moved_from (d : option (Ty * V)) : option (Ty * V) :=
  match d with
  | Some (T, v) => Some (T, snd (move_ctor E T v))
  | None => None
  end.

(** Conditions under which the generic lambdas of the constructors
    (guarded by [if constexpr]) and of the assignment operators (not
    guarded) compile at every type of the pack; [cc] is
    [is_copy_constructible] or [is_move_constructible]. *)
Definition ctor_pack_ok (cc : Ty -> bool) : bool :=
  forallb (fun T => is_abstract E T || cc T) types.

Definition assign_pack_ok (cc : Ty -> bool) : bool :=
  forallb (fun T => negb (is_abstract E T) && cc T) types.

(** Number of visitor calls recorded in a trace. *)
Fixpoint calls (t : list Event) : nat :=
  match t with
  | [] => 0
  | EvCall _ :: t' => S (calls t')
  | _ :: t' => calls t'
  end.
(** What one call of a public operation must achieve: the invariant
    holds again, and the steps it added to the trace write the tag before
    a construction, reset it after a destruction, and never reuse the
    storage of a live object. *)
Definition good_step (s s' : State) : Prop :=
  inv s' /\
  exists evs, trace s' = trace s ++ evs /\
              tag_then_construct None evs = true /\
              destroy_then_reset evs = true /\
              no_overwrite evs = true.

(** The containers an operation may change: the one it is called on and,
    for the two moves, the one it moves from. *)
Definition footprint (op : PublicOp) : list loc :=
  match op with
  | OpDefault this | OpConstU this _ _ | OpRvalueU this _ _ | OpDtor this
  | OpAssignConstU this _ _ | OpAssignRvalueU this _ _ | OpErase this
  | OpCopy this _ | OpAssignCopy this _ => [this]
  | OpMove this p | OpAssignMove this p => [this; p]
  | OpVisitProbe _ _ | OpArrow _ _ | OpHoldsType _ _ | OpHoldsAny _
  | OpIsEmpty _ => []
  end.

(** [m], when it returns, has changed no container outside [L]. *)
Definition changes_only {A} (L : list loc) (m : M A) : Prop :=
  forall s a s', m s = Ok a s' ->
  forall l, l ∉ L -> heap s' !! l = heap s !! l.

(** A pointer handed out by the container at [this]. *)
Definition points_into (this : loc) (P : Ptr) : Prop :=
  ptr_addr P = None \/ ptr_addr P = Some this.

(** A visitor that changes nothing outside [L] when it is handed a pointer
    into the visited container. *)
Definition cb_changes_only (L : list loc) (this : loc) (F : Callback) : Prop :=
  forall T f P, F T = Some f -> points_into this P -> changes_only L (f P).

(** Numbers of payload constructions and of destructor calls in a trace. *)
Fixpoint constructions (t : list Event) : nat :=
  match t with
  | [] => 0
  | EvConstruct _ _ _ :: t' => S (constructions t')
  | _ :: t' => constructions t'
  end.

Fixpoint destructions (t : list Event) : nat :=
  match t with
  | [] => 0
  | EvDestroy _ _ _ :: t' => S (destructions t')
  | _ :: t' => destructions t'
  end.
End Poly.

Arguments mkPtr {Ty} _ _ _.
Arguments mkPoly {Ty V} _ _.
Arguments mkState {Ty V} _ _.
Arguments EvSetTag {Ty V} _ _.
Arguments EvConstruct {Ty V} _ _ _.
Arguments EvDestroy {Ty V} _ _ _.
Arguments EvOverwrite {Ty V} _ _ _.
Arguments EvCall {Ty V} _.

(** ** Two instantiations

    [MyPoly] is the one of [Driver.cpp]: an abstract [MyBase] with two
    concrete classes.  [ShapePoly] has a concrete base class, which is the
    case in which the base is a type the container can hold. *)
Inductive DriverTy : Type := MyBase | Meower | Woofer.

#[global] Instance DriverTy_eq_dec : EqDecision DriverTy.
Proof. solve_decision. Defined.

(** Payload values are natural numbers; copies are equal to their source and
    a move hands the value over, leaving 0 behind. *)
Definition MyEnv : TypeEnv DriverTy nat := {|
  is_abstract := fun T => match T with MyBase => true | _ => false end;
  is_copy_constructible := fun T => match T with MyBase => false | _ => true end;
  is_copy_assignable := fun _ => true;
  is_move_constructible := fun T => match T with MyBase => false | _ => true end;
  is_move_assignable := fun _ => true;
  copy_ctor := fun _ v => v;
  move_ctor := fun _ v => (v, 0)
|}.

Inductive ShapeTy : Type := Shape | Circle | Square.

#[global] Instance ShapeTy_eq_dec : EqDecision ShapeTy.
Proof. solve_decision. Defined.

Definition ShapeEnv : TypeEnv ShapeTy nat := {|
  is_abstract := fun _ => false;
  is_copy_constructible := fun _ => true;
  is_copy_assignable := fun _ => true;
  is_move_constructible := fun _ => true;
  is_move_assignable := fun _ => true;
  copy_ctor := fun _ v => v;
  move_ctor := fun _ v => (v, 0)
|}.

(** A store with one [ShapePoly] at address 1, holding a [Circle] of value
    5 under tag 2, and nothing traced. *)
Definition one_circle : State (Ty := ShapeTy) (V := nat) :=
  mkState {[ 1 := mkPoly (Some (Circle, 5)) 2 ]} [].

(** A store with a [Circle] at address 1 and a [Square] at address 2. *)
Definition two_shapes : State (Ty := ShapeTy) (V := nat) :=
  mkState (<[ 1 := mkPoly (Some (Circle, 5)) 2 ]>
             {[ 2 := mkPoly (Some (Square, 9)) 3 ]}) [].

(** A store with one [MyPoly] at address 1 holding a [Meower]. *)
Definition one_meower : State (Ty := DriverTy) (V := nat) :=
  mkState {[ 1 := mkPoly (Some (Meower, 7)) 2 ]} [].

(** A store with a [Meower] at address 1 and a [Woofer] at address 2. *)
Definition meower_and_woofer : State (Ty := DriverTy) (V := nat) :=
  mkState (<[ 1 := mkPoly (Some (Meower, 7)) 2 ]>
             {[ 2 := mkPoly (Some (Woofer, 4)) 3 ]}) [].

(** A store with one empty [MyPoly] at address 1. *)
Definition one_empty : State (Ty := DriverTy) (V := nat) :=
  mkState {[ 1 := mkPoly None 0 ]} [].

(** A container whose tag is the tag of no type of the pack. *)
Definition stray_tag : State (Ty := DriverTy) (V := nat) :=
  mkState {[ 1 := mkPoly (Some (Meower, 7)) 9 ]} [].

(** ** The example program

    [main] of the example that goes with this header (the one that uses
    only the members the header has).  [x], [y] and [z] are the three
    [MyPoly] objects of its frame; the temporaries [Meower()], [Woofer()]
    and the local [M] are not containers and appear as the values they
    carry.  The result lists, in order, the classes whose [saySomething]
    printed. *)
Section Driver.
Context {V : Type}.
Variable E : TypeEnv DriverTy V.
Variable NDEBUG : bool.
(** The values of [Meower()], of [Woofer()] and of [M]. *)
Variables meower_tmp woofer_tmp M_val : V.

Notation "x <- m ;; k" := (bind m (fun x => k))
  (at level 100, m at next level, right associativity).
Notation "m ;;; k" := (bind m (fun _ => k))
  (at level 100, right associativity).

(** [assert(cond)] of [<cassert>]: with [NDEBUG] the condition is not
    evaluated. *)
Definition c_assert (cond : M (Ty := DriverTy) (V := V) bool) : M unit :=
  if NDEBUG then ret tt
  else b <- cond ;; if b then ret tt else throw AssertFailed.

(** [P->saySomething()]: a virtual call, which runs the override of the
    class of the object alive behind [P]; [MyBase] itself has none. *)
Definition saySomething (P : Ptr (Ty := DriverTy))
  : M (Ty := DriverTy) (V := V) DriverTy :=
  match ptr_addr P with
  | None => throw UB
  | Some l =>
      r <- load l ;;
      match data_ r with
      | Some (Meower, _) => ret Meower
      | Some (Woofer, _) => ret Woofer
      | _ => throw UB
      end
  end.

Definition x_addr : nat := 1.
Definition y_addr : nat := 2.
Definition z_addr : nat := 3.

Definition main : M (Ty := DriverTy) (V := V) (list DriverTy) :=
  let D := [Meower; Woofer] in
  Poly_default x_addr ;;;
  c_assert (isEmpty x_addr) ;;;
  assign_rvalue_U E MyBase D x_addr Meower meower_tmp ;;;
  P1 <- operator_arrow MyBase NDEBUG false x_addr ;;
  o1 <- saySomething P1 ;;
  assign_rvalue_U E MyBase D x_addr Woofer woofer_tmp ;;;
  P2 <- operator_arrow MyBase NDEBUG false x_addr ;;
  o2 <- saySomething P2 ;;
  c_assert (holdsType MyBase D Woofer x_addr) ;;;
  Poly_copy E MyBase D y_addr x_addr ;;;
  c_assert (holdsAny y_addr) ;;;
  assign_const_U E MyBase D y_addr Meower M_val ;;;
  c_assert (holdsType MyBase D Meower y_addr) ;;;
  P3 <- operator_arrow MyBase NDEBUG false y_addr ;;
  o3 <- saySomething P3 ;;
  Poly_move E MyBase D z_addr x_addr ;;;
  c_assert (b <- holdsType MyBase D Woofer z_addr ;;
            if b then isEmpty x_addr else ret false) ;;;
  P4 <- operator_arrow MyBase NDEBUG false z_addr ;;
  o4 <- saySomething P4 ;;
  Poly_dtor MyBase D z_addr ;;;
  Poly_dtor MyBase D y_addr ;;;
  Poly_dtor MyBase D x_addr ;;;
  ret [o1; o2; o3; o4].

(** What [main] needs of the three classes: an abstract [MyBase], and
    concrete, copyable and movable [Meower] and [Woofer]. *)
Definition driver_classes_ok : bool :=
  is_abstract E MyBase &&
  negb (is_abstract E Meower) && negb (is_abstract E Woofer) &&
  H.copyable E Meower && H.copyable E Woofer &&
  H.movable E Meower && H.movable E Woofer.
End Driver.

(** * Properties of the registry *)

Section RegistryFacts.
Context {Ty : Type} `{EqDecision Ty}.
Implicit Types (TT : list Ty) (U T : Ty) (i j k : nat).

Lemma matches_any_acc T TT b :
  foldl (fun acc U => acc || bool_decide (T = U)) b TT = true <->
  b = true \/ T ∈ TT.
Proof.
  revert b. induction TT as [|U TT IH]; intros b; simpl.
  - rewrite elem_of_nil. tauto.
  - rewrite IH, elem_of_cons, orb_true_iff, bool_decide_eq_true. tauto.
Qed.

Lemma matches_any_elem T TT : H.matches_any T TT = true <-> T ∈ TT.
Proof.
  unfold H.matches_any. rewrite matches_any_acc.
  split; [intros [?|?]; [discriminate | done] | by right].
Qed.

Lemma foldl_andb_true (f : Ty -> bool) TT b :
  foldl (fun acc T => acc && f T) b TT = true <->
  b = true /\ forall T, T ∈ TT -> f T = true.
Proof.
  revert b. induction TT as [|U TT IH]; intros b; simpl.
  - split; [intros ->; split; [done | by intros ? ?%elem_of_nil] | tauto].
  - rewrite IH, andb_true_iff. split.
    + intros [[-> HU] HT]. split; [done |].
      intros T [-> | ?]%elem_of_cons; auto.
    + intros [-> HT]. split; [split; [done |] |].
      * apply HT. by left.
      * intros T ?. apply HT. by right.
Qed.

(** Nodes whose indices start above [J - 1] offer no [IGetTy] for [J]. *)
Lemma IGetTy_below TT j J :
  J <= j ->
  omap (fun n => H.IGetTy n J) (H.IPoly (seq j (length TT)) TT) = [].
Proof.
  revert j. induction TT as [|T0 TT IH]; intros j HJ; [done |].
  simpl. unfold H.IGetTy at 1. simpl.
  destruct (decide (J = j + 1)); [lia |].
  apply IH. lia.
Qed.

Lemma IGetTy_at TT j i T :
  TT !! i = Some T ->
  omap (fun n => H.IGetTy n (j + i + 1)) (H.IPoly (seq j (length TT)) TT)
  = [T].
Proof.
  revert j i. induction TT as [|T0 TT IH]; intros j i Hi; [done |].
  simpl. unfold H.IGetTy at 1. simpl.
  destruct i as [|i]; simpl in Hi.
  - injection Hi as ->.
    destruct (decide (j + 0 + 1 = j + 1)); [| lia].
    f_equal. apply IGetTy_below. lia.
  - destruct (decide (j + S i + 1 = j + 1)); [lia |].
    replace (j + S i + 1) with (S j + i + 1) by lia.
    by apply IH.
Qed.

Lemma IGetID_absent TT j U :
  U ∉ TT ->
  omap (fun n => H.IGetID n U) (H.IPoly (seq j (length TT)) TT) = [].
Proof.
  revert j. induction TT as [|T0 TT IH]; intros j HU; [done |].
  simpl. unfold H.IGetID at 1. simpl.
  apply not_elem_of_cons in HU as [HU0 HU].
  destruct (decide (U = T0)); [done |].
  by apply IH.
Qed.

Lemma IGetID_at TT j i U :
  NoDup TT -> TT !! i = Some U ->
  omap (fun n => H.IGetID n U) (H.IPoly (seq j (length TT)) TT)
  = [j + i + 1].
Proof.
  revert j i. induction TT as [|T0 TT IH]; intros j i Hnd Hi; [done |].
  apply NoDup_cons in Hnd as [Hnotin Hnd].
  simpl. unfold H.IGetID at 1. simpl.
  destruct i as [|i]; simpl in Hi.
  - injection Hi as ->.
    destruct (decide (U = U)); [| done].
    rewrite IGetID_absent by done. f_equal. lia.
  - destruct (decide (U = T0)) as [-> |].
    + exfalso. apply Hnotin. apply list_elem_of_lookup. eauto.
    + etrans; [exact (IH (S j) i Hnd Hi) | f_equal; lia].
Qed.

Lemma IPoly_node TT j (n : H.PolyNode) :
  n ∈ H.IPoly (seq j (length TT)) TT ->
  exists i, H.value n = j + i /\ TT !! i = Some (H.Type_ n).
Proof.
  unfold H.IPoly. intros (i & Hi)%list_elem_of_lookup.
  apply lookup_zip_with_Some in Hi as (T & I & -> & HT & HI).
  apply lookup_seq in HI as [-> _]. by exists i.
Qed.

Lemma resolve_Some {A} (l : list A) a : H.resolve l = Some a -> l = [a].
Proof. destruct l as [|? [|]]; simpl; congruence. Qed.

(** A tag that [GetID] produces for [U] is one more than a position of
    [U] in the pack. *)
Lemma GetID_lookup TT U k :
  H.GetID (H.IPolyBase TT) U = Some k ->
  exists i, k = i + 1 /\ TT !! i = Some U.
Proof.
  unfold H.GetID. intros Hr%resolve_Some.
  assert (Hin : k ∈ omap (fun n => H.IGetID n U) (H.IPolyBase TT))
    by (rewrite Hr; by left).
  apply list_elem_of_omap in Hin as (n & Hn & Hid).
  apply IPoly_node in Hn as (i & Hv & HT).
  unfold H.IGetID in Hid. destruct (decide (U = H.Type_ n)); [| done].
  injection Hid as <-. exists i. split; [lia | congruence].
Qed.

Lemma GetID_nodup TT U i :
  NoDup TT -> TT !! i = Some U ->
  H.GetID (H.IPolyBase TT) U = Some (i + 1).
Proof.
  intros Hnd Hi. unfold H.GetID, H.IPolyBase.
  by rewrite (IGetID_at TT 0 i U).
Qed.

Lemma GetID_inj TT U U' k :
  H.GetID (H.IPolyBase TT) U = Some k ->
  H.GetID (H.IPolyBase TT) U' = Some k ->
  U = U'.
Proof.
  intros (i & -> & Hi)%GetID_lookup (i' & Heq & Hi')%GetID_lookup.
  assert (i = i') as -> by lia. congruence.
Qed.

Lemma IGetTy_set_at TT i T :
  TT !! i = Some T -> H.IGetTy_set (H.IPolyBase TT) (i + 1) = Some T.
Proof.
  intros Hi. unfold H.IGetTy_set, H.IPolyBase.
  pose proof (IGetTy_at TT 0 i T Hi) as Hx.
  change (0 + i + 1) with (i + 1) in Hx. by rewrite Hx.
Qed.

Lemma GetTy_at TT i T :
  TT !! i = Some T -> H.GetTy (H.IPolyBase TT) i = Some T.
Proof.
  intros Hi. unfold H.GetTy, H.IPolyBase.
  pose proof (IGetTy_at TT 0 i T Hi) as Hx.
  change (0 + i + 1) with (i + 1) in Hx. by rewrite Hx.
Qed.
End RegistryFacts.

(** * Properties of the container *)

Section Theory.
Context {Ty : Type} `{EqDecision Ty} {V : Type}.
Variable E : TypeEnv Ty V.
Variable Base : Ty.
Variable Derived : list Ty.
Implicit Types (s : State (Ty := Ty) (V := V)) (T U : Ty) (v u : V).
Implicit Types (this p l : nat) (F : Callback (Ty := Ty) (V := V)).
Implicit Types (r : PolyRep (Ty := Ty) (V := V)).

(** ** Tags *)

Lemma ID_inj T U k :
  ID Base Derived T = Some k -> ID Base Derived U = Some k -> T = U.
Proof. apply GetID_inj. Qed.

Lemma ID_lookup T k :
  ID Base Derived T = Some k ->
  exists i, k = i + 1 /\ types Base Derived !! i = Some T.
Proof. apply GetID_lookup. Qed.

Lemma ID_range T k :
  ID Base Derived T = Some k -> 1 <= k <= length Derived + 1.
Proof.
  intros (i & -> & Hi)%ID_lookup.
  apply lookup_lt_Some in Hi. unfold types in Hi. simpl in Hi. lia.
Qed.

Lemma ID_elem T k : ID Base Derived T = Some k -> T ∈ types Base Derived.
Proof.
  intros (i & -> & Hi)%ID_lookup. apply list_elem_of_lookup. eauto.
Qed.

Lemma ID_nodup T i :
  NoDup (types Base Derived) -> types Base Derived !! i = Some T ->
  ID Base Derived T = Some (i + 1).
Proof. apply GetID_nodup. Qed.

Lemma ID_total T :
  NoDup (types Base Derived) -> T ∈ types Base Derived ->
  is_Some (ID Base Derived T).
Proof.
  intros Hnd (i & Hi)%list_elem_of_lookup.
  rewrite (ID_nodup T i) by done. eauto.
Qed.

(** ** Dispatch *)

Lemma instantiates_spec TT F :
  instantiates Base Derived TT F = true <->
  forall T, T ∈ TT -> is_Some (ID Base Derived T) /\ is_Some (F T).
Proof.
  unfold instantiates. rewrite forallb_forall. split.
  - intros Hall T HT%list_elem_of_In. specialize (Hall T HT).
    apply andb_true_iff in Hall as [H1 H2].
    by apply bool_decide_eq_true in H1, H2.
  - intros Hall T HT%list_elem_of_In. destruct (Hall T HT).
    apply andb_true_iff. by rewrite !bool_decide_eq_true.
Qed.

Lemma get_id_ok l r s : heap s !! l = Some r -> get_id l s = Ok (id_ r) s.
Proof. intros Hl. unfold get_id, bind, load, ret. by rewrite Hl. Qed.

(** The scan stops at the type whose tag is the live one and calls the
    visitor there, with a pointer to the storage typed by that type. *)
Lemma visit__hit cst TT F this s r T f :
  heap s !! this = Some r ->
  ID Base Derived T = Some (id_ r) ->
  F T = Some f ->
  T ∈ TT ->
  (forall U, U ∈ TT -> is_Some (ID Base Derived U) /\ is_Some (F U)) ->
  visit_ Base Derived cst TT F this s = f (mkPtr T (Some this) cst) s.
Proof.
  intros Hr HT HF Hin Hall.
  induction TT as [|T0 TT IH]; [by apply elem_of_nil in Hin |].
  simpl. destruct (Hall T0) as [[k0 Hk0] [f0 Hf0]]; [by left |].
  rewrite Hk0, Hf0. unfold bind. rewrite (get_id_ok _ _ _ Hr).
  destruct (Nat.eqb_spec k0 (id_ r)) as [-> | Hne]; simpl.
  - assert (T0 = T) as -> by (by eapply ID_inj).
    assert (f0 = f) as -> by congruence.
    unfold getPtr, bind. rewrite (get_id_ok _ _ _ Hr).
    apply ID_range in HT.
    destruct (Nat.eqb_spec (id_ r) 0); [lia | done].
  - apply IH.
    + apply elem_of_cons in Hin as [-> | ?]; [congruence | done].
    + intros U HU. apply Hall. by right.
Qed.

Lemma visit_empty cst F this s r :
  heap s !! this = Some r -> id_ r = 0 ->
  instantiates Base Derived (types Base Derived) F = true ->
  visit Base Derived cst F this s = Ok tt s.
Proof.
  intros Hr H0 Hinst. unfold visit. rewrite Hinst.
  unfold isEmpty, bind. rewrite (get_id_ok _ _ _ Hr), H0. done.
Qed.

Lemma visit_hit cst F this s r T f :
  heap s !! this = Some r ->
  ID Base Derived T = Some (id_ r) ->
  F T = Some f ->
  instantiates Base Derived (types Base Derived) F = true ->
  visit Base Derived cst F this s = f (mkPtr T (Some this) cst) s.
Proof.
  intros Hr HT HF Hinst. unfold visit. rewrite Hinst.
  unfold isEmpty, bind. rewrite (get_id_ok _ _ _ Hr).
  pose proof (ID_range _ _ HT).
  destruct (Nat.eqb_spec (id_ r) 0); [lia |]. cbv beta iota.
  eapply visit__hit; eauto using ID_elem.
  by apply instantiates_spec.
Qed.

Lemma instantiates_total F :
  NoDup (types Base Derived) ->
  (forall T, T ∈ types Base Derived -> is_Some (F T)) ->
  instantiates Base Derived (types Base Derived) F = true.
Proof.
  intros Hnd HF. apply instantiates_spec. intros T HT.
  split; [by apply ID_total | by apply HF].
Qed.

Lemma instantiates_destroy_cb :
  NoDup (types Base Derived) ->
  instantiates (V := V) Base Derived (types Base Derived) destroy_cb
  = true.
Proof. intros. apply instantiates_total; [done | by eauto]. Qed.

Lemma instantiates_probe :
  NoDup (types Base Derived) ->
  instantiates (V := V) Base Derived (types Base Derived) probe = true.
Proof. intros. apply instantiates_total; [done | by eauto]. Qed.

(** ** Steps on the store *)

Lemma set_id_ok l k r s :
  heap s !! l = Some r ->
  set_id l k s
  = Ok tt (mkState (<[l := mkPoly (data_ r) k]> (heap s))
                   (trace s ++ [EvSetTag l k])).
Proof. intros Hl. unfold set_id, bind, load, store, emit. by rewrite Hl. Qed.

Lemma alloc_ok l k s :
  heap s !! l = None ->
  alloc l k s
  = Ok tt (mkState (<[l := mkPoly None k]> (heap s))
                   (trace s ++ [EvSetTag l k])).
Proof. intros Hl. unfold alloc. by rewrite Hl. Qed.

Lemma placement_new_ok l T v r s :
  heap s !! l = Some r -> data_ r = None ->
  placement_new l T v s
  = Ok tt (mkState (<[l := mkPoly (Some (T, v)) (id_ r)]> (heap s))
                   (trace s ++ [EvConstruct l T v])).
Proof.
  intros Hl Hd. unfold placement_new, bind, load, store, emit, ret.
  by rewrite Hl, Hd.
Qed.

Lemma deref_ok l T v k cst s :
  heap s !! l = Some (mkPoly (Some (T, v)) k) ->
  deref (mkPtr T (Some l) cst) s = Ok v s.
Proof.
  intros Hl. unfold deref, bind, load, ret. simpl. rewrite Hl. simpl.
  by destruct (decide (T = T)).
Qed.

Lemma destroy_at_ok l T v k s :
  heap s !! l = Some (mkPoly (Some (T, v)) k) ->
  destroy_at (mkPtr T (Some l) false) s
  = Ok tt (mkState (<[l := mkPoly None k]> (heap s))
                   (trace s ++ [EvDestroy l T v])).
Proof.
  intros Hl. unfold destroy_at, bind. rewrite (deref_ok _ _ _ _ _ _ Hl).
  unfold assign_through, bind, load, store, emit. simpl. by rewrite Hl.
Qed.

Lemma heap_swap (m : gmap nat (PolyRep (Ty := Ty) (V := V))) i j x y :
  i <> j -> <[i := x]> (<[j := y]> m) = <[j := y]> (<[i := x]> m).
Proof. apply insert_insert_ne. Qed.

Lemma state_eta s : mkState (heap s) (trace s) = s.
Proof. by destruct s. Qed.

(** [destroySelf] on a well-formed container: the payload, if any, is
    destroyed, then the tag is reset. *)
Lemma destroySelf_ok l r s :
  NoDup (types Base Derived) ->
  heap s !! l = Some r -> rep_ok E Base Derived r ->
  destroySelf Base Derived l s
  = Ok tt (mkState (<[l := mkPoly None 0]> (heap s))
                   (trace s ++ destroy_events l r ++ [EvSetTag l 0])).
Proof.
  intros Hnd Hl Hok. unfold destroySelf, bind.
  pose proof (instantiates_destroy_cb Hnd) as Hinst.
  destruct r as [[[T v]|] k]; unfold rep_ok in Hok; simpl in Hok.
  - destruct Hok as [HT _].
    rewrite (visit_hit false destroy_cb l s _ T (fun P => destroy_at P) Hl HT
               eq_refl Hinst).
    rewrite (destroy_at_ok _ _ _ _ _ Hl).
    erewrite set_id_ok by (simpl; apply lookup_insert_eq).
    simpl. rewrite insert_insert_eq, <- app_assoc. done.
  - subst k. rewrite (visit_empty false destroy_cb l s _ Hl eq_refl Hinst).
    by rewrite (set_id_ok _ _ _ _ Hl).
Qed.

Lemma get_id_fail l s : heap s !! l = None -> get_id l s = Fail UB.
Proof. intros Hl. unfold get_id, bind, load. by rewrite Hl. Qed.

Lemma visit_unallocated cst F l s :
  heap s !! l = None -> exists e, visit Base Derived cst F l s = Fail e.
Proof.
  intros Hl. unfold visit, isEmpty, bind.
  destruct (instantiates _ _ _ _); [| by eexists].
  rewrite (get_id_fail _ _ Hl). by eexists.
Qed.

Lemma destroySelf_unallocated l s :
  heap s !! l = None -> exists e, destroySelf Base Derived l s = Fail e.
Proof.
  intros Hl. unfold destroySelf, bind.
  destruct (visit_unallocated false destroy_cb l s Hl) as [e ->]. eauto.
Qed.

(** ** Instantiation of the copying and moving lambdas *)

Lemma pack_ok_elem (f : Ty -> bool) TT T :
  forallb f TT = true -> T ∈ TT -> f T = true.
Proof.
  intros Hall HT%list_elem_of_In. by apply (proj1 (forallb_forall f TT) Hall).
Qed.

Lemma instantiates_copy_ctor_cb this :
  NoDup (types Base Derived) ->
  ctor_pack_ok E Base Derived (is_copy_constructible E) = true ->
  instantiates Base Derived (types Base Derived) (copy_ctor_cb E this) = true.
Proof.
  intros Hnd Hok. apply instantiates_total; [done |]. intros T HT.
  unfold copy_ctor_cb.
  pose proof (pack_ok_elem _ _ _ Hok HT) as HcT. simpl in HcT.
  destruct (is_abstract E T); simpl in *; [by eauto |].
  rewrite HcT. by eauto.
Qed.

Lemma instantiates_move_ctor_cb this :
  NoDup (types Base Derived) ->
  ctor_pack_ok E Base Derived (is_move_constructible E) = true ->
  instantiates Base Derived (types Base Derived) (move_ctor_cb E this) = true.
Proof.
  intros Hnd Hok. apply instantiates_total; [done |]. intros T HT.
  unfold move_ctor_cb.
  pose proof (pack_ok_elem _ _ _ Hok HT) as HcT. simpl in HcT.
  destruct (is_abstract E T); simpl in *; [by eauto |].
  rewrite HcT. by eauto.
Qed.

Lemma instantiates_copy_assign_cb this :
  NoDup (types Base Derived) ->
  assign_pack_ok E Base Derived (is_copy_constructible E) = true ->
  instantiates Base Derived (types Base Derived) (copy_assign_cb E this)
  = true.
Proof.
  intros Hnd Hok. apply instantiates_total; [done |]. intros T HT.
  unfold copy_assign_cb.
  rewrite (pack_ok_elem _ _ _ Hok HT). by eauto.
Qed.

Lemma instantiates_move_assign_cb this :
  NoDup (types Base Derived) ->
  assign_pack_ok E Base Derived (is_move_constructible E) = true ->
  instantiates Base Derived (types Base Derived) (move_assign_cb E this)
  = true.
Proof.
  intros Hnd Hok. apply instantiates_total; [done |]. intros T HT.
  unfold move_assign_cb.
  rewrite (pack_ok_elem _ _ _ Hok HT). by eauto.
Qed.

(** With an abstract base class the lambdas of the two assignment
    operators do not compile: they have no [if constexpr]. *)
Lemma assign_pack_abstract_base cc :
  is_abstract E Base = true -> assign_pack_ok E Base Derived cc = false.
Proof. intros Ha. unfold assign_pack_ok, types. simpl. by rewrite Ha. Qed.

Lemma instantiates_abstract_base this :
  is_abstract E Base = true ->
  instantiates Base Derived (types Base Derived) (copy_assign_cb E this)
  = false /\
  instantiates Base Derived (types Base Derived) (move_assign_cb E this)
  = false.
Proof.
  intros Ha. unfold instantiates, types, copy_assign_cb, move_assign_cb.
  simpl. rewrite Ha. simpl. by rewrite !andb_false_r.
Qed.

(** So, whatever the store, neither assignment between containers is
    available when the base class is abstract, while both constructors
    are. *)
Lemma assign_rejects_abstract_base this p s s' :
  is_abstract E Base = true ->
  assign_copy E Base Derived this p s <> Ok tt s' /\
  assign_move E Base Derived this p s <> Ok tt s'.
Proof.
  intros Ha. destruct (instantiates_abstract_base this Ha) as [Hc Hm].
  split; intros Hrun.
  - unfold assign_copy, bind in Hrun.
    destruct (H.all_copyable E Derived); [| done].
    destruct (destroySelf Base Derived this s) as [[] s1|]; [| done].
    destruct (get_id p s1) as [k s2|]; [| done].
    destruct (set_id this k s2) as [[] s3|]; [| done].
    unfold visit in Hrun. by rewrite Hc in Hrun.
  - unfold assign_move, bind in Hrun.
    destruct (H.all_movable E Derived); [| done].
    destruct (destroySelf Base Derived this s) as [[] s1|]; [| done].
    destruct (get_id p s1) as [k s2|]; [| done].
    destruct (set_id this k s2) as [[] s3|]; [| done].
    unfold visit in Hrun. by rewrite Hm in Hrun.
Qed.

Lemma instantiates_elem TT F T :
  instantiates Base Derived TT F = true -> T ∈ TT -> is_Some (F T).
Proof. intros Hi HT. by apply (proj1 (instantiates_spec TT F) Hi). Qed.

(** ** The copying and moving visits *)

Ltac lk :=
  simpl; rewrite ?lookup_insert_eq;
  repeat (rewrite lookup_insert_ne by congruence);
  rewrite ?lookup_insert_eq; eauto.

Ltac lk' :=
  simpl;
  repeat first [ rewrite lookup_insert_eq
               | rewrite lookup_insert_ne by congruence
               | rewrite lookup_delete_eq
               | rewrite lookup_delete_ne by congruence ];
  eauto.

(** Copying the payload of [p] into the payload-free container [this]. *)
Lemma visit_copy cb this p s rt rp :
  (cb = copy_ctor_cb E this \/ cb = copy_assign_cb E this) ->
  instantiates Base Derived (types Base Derived) cb = true ->
  this <> p ->
  heap s !! this = Some rt -> data_ rt = None ->
  heap s !! p = Some rp -> rep_ok E Base Derived rp ->
  visit Base Derived true cb p s
  = Ok tt (mkState
             (<[this := mkPoly (match data_ rp with
                                | Some _ => copied E (data_ rp)
                                | None => data_ rt
                                end) (id_ rt)]> (heap s))
             (trace s ++ construct_events this (copied E (data_ rp)))).
Proof.
  intros Hcb Hinst Hne Ht Hd Hp Hok.
  destruct rp as [[[T v]|] k]; unfold rep_ok in Hok; simpl in Hok.
  - destruct Hok as [HT Ha].
    destruct (instantiates_elem _ _ T Hinst (ID_elem _ _ HT)) as [f Hf].
    rewrite (visit_hit true cb p s _ T f Hp HT Hf Hinst).
    assert (f = fun P => bind (deref P)
              (fun w => placement_new this T (copy_ctor E T w))) as ->.
    { destruct Hcb as [-> | ->];
        unfold copy_ctor_cb, copy_assign_cb in Hf; rewrite Ha in Hf;
        simpl in Hf; destruct (is_copy_constructible E T); congruence. }
    unfold bind. rewrite (deref_ok _ _ _ _ _ _ Hp).
    by rewrite (placement_new_ok _ _ _ _ _ Ht Hd).
  - subst k. rewrite (visit_empty true cb p s _ Hp eq_refl Hinst).
    simpl. rewrite app_nil_r.
    rewrite insert_id by (by destruct rt). by rewrite state_eta.
Qed.

(** Moving the payload of [p] into the payload-free container [this];
    [p] keeps its tag and a moved-from payload. *)
Lemma visit_move cb this p s rt rp :
  (cb = move_ctor_cb E this \/ cb = move_assign_cb E this) ->
  instantiates Base Derived (types Base Derived) cb = true ->
  this <> p ->
  heap s !! this = Some rt -> data_ rt = None ->
  heap s !! p = Some rp -> rep_ok E Base Derived rp ->
  visit Base Derived false cb p s
  = Ok tt (mkState
             (<[this := mkPoly (match data_ rp with
                                | Some _ => moved_to E (data_ rp)
                                | None => data_ rt
                                end) (id_ rt)]>
                (<[p := mkPoly (moved_from E (data_ rp)) (id_ rp)]> (heap s)))
             (trace s ++ construct_events this (moved_to E (data_ rp)))).
Proof.
  intros Hcb Hinst Hne Ht Hd Hp Hok.
  destruct rp as [[[T v]|] k]; unfold rep_ok in Hok; simpl in Hok.
  - destruct Hok as [HT Ha].
    destruct (instantiates_elem _ _ T Hinst (ID_elem _ _ HT)) as [f Hf].
    rewrite (visit_hit false cb p s _ T f Hp HT Hf Hinst).
    assert (f = move_construct E this T) as ->.
    { destruct Hcb as [-> | ->];
        unfold move_ctor_cb, move_assign_cb in Hf; rewrite Ha in Hf;
        simpl in Hf; destruct (is_move_constructible E T); congruence. }
    unfold move_construct, bind. rewrite (deref_ok _ _ _ _ _ _ Hp).
    unfold assign_through, bind, load, store. simpl. rewrite Hp. simpl.
    erewrite placement_new_ok; [| lk | done]. done.
  - subst k. rewrite (visit_empty false cb p s _ Hp eq_refl Hinst).
    simpl. rewrite app_nil_r.
    rewrite (insert_id (heap s) p) by done.
    rewrite insert_id by (by destruct rt). by rewrite state_eta.
Qed.

(** ** What each operation does to a well-formed store *)

Lemma rep_ok_empty : rep_ok E Base Derived (mkPoly None 0).
Proof. done. Qed.

Lemma rep_ok_moved_from rp :
  rep_ok E Base Derived rp ->
  rep_ok E Base Derived (mkPoly (moved_from E (data_ rp)) (id_ rp)).
Proof. by destruct rp as [[[T v]|] k]. Qed.

Lemma Poly_copy_ok this p s rp :
  NoDup (types Base Derived) ->
  H.all_copyable E Derived = true ->
  instantiates Base Derived (types Base Derived) (copy_ctor_cb E this) = true ->
  heap s !! this = None ->
  heap s !! p = Some rp -> rep_ok E Base Derived rp ->
  Poly_copy E Base Derived this p s
  = Ok tt (mkState
             (<[this := mkPoly (copied E (data_ rp)) (id_ rp)]> (heap s))
             (trace s ++ [EvSetTag this (id_ rp)]
                ++ construct_events this (copied E (data_ rp)))).
Proof.
  intros Hnd Hall Hinst Ht Hp Hok.
  assert (this <> p) as Hne by congruence.
  unfold Poly_copy, bind. rewrite Hall, (get_id_ok _ _ _ Hp).
  rewrite (alloc_ok _ _ _ Ht).
  erewrite (visit_copy _ this p); [| by left | done | done | lk | done | lk | done].
  simpl. rewrite insert_insert_eq, <- app_assoc.
  by destruct (data_ rp) as [[]|].
Qed.

Lemma Poly_move_ok this p s rp :
  NoDup (types Base Derived) ->
  H.all_movable E Derived = true ->
  instantiates Base Derived (types Base Derived) (move_ctor_cb E this) = true ->
  heap s !! this = None ->
  heap s !! p = Some rp -> rep_ok E Base Derived rp ->
  Poly_move E Base Derived this p s
  = Ok tt (mkState
             (<[p := mkPoly None 0]>
                (<[this := mkPoly (moved_to E (data_ rp)) (id_ rp)]> (heap s)))
             (trace s ++ [EvSetTag this (id_ rp)]
                ++ construct_events this (moved_to E (data_ rp))
                ++ destroy_events p (mkPoly (moved_from E (data_ rp)) (id_ rp))
                ++ [EvSetTag p 0])).
Proof.
  intros Hnd Hall Hinst Ht Hp Hok.
  assert (this <> p) as Hne by congruence.
  unfold Poly_move, bind. rewrite Hall, (get_id_ok _ _ _ Hp).
  rewrite (alloc_ok _ _ _ Ht).
  erewrite (visit_move _ this p); [| by left | done | done | lk | done | lk | done].
  erewrite destroySelf_ok; [| done | lk | by apply rep_ok_moved_from].
  simpl. rewrite (heap_swap _ this p) by done.
  rewrite !insert_insert_eq.
  rewrite <- !app_assoc.
  by destruct (data_ rp) as [[]|].
Qed.

Lemma assign_copy_ok this p s rt rp :
  NoDup (types Base Derived) ->
  H.all_copyable E Derived = true ->
  instantiates Base Derived (types Base Derived) (copy_assign_cb E this) = true ->
  this <> p ->
  heap s !! this = Some rt -> rep_ok E Base Derived rt ->
  heap s !! p = Some rp -> rep_ok E Base Derived rp ->
  assign_copy E Base Derived this p s
  = Ok tt (mkState
             (<[this := mkPoly (copied E (data_ rp)) (id_ rp)]> (heap s))
             (trace s ++ destroy_events this rt
                ++ [EvSetTag this 0; EvSetTag this (id_ rp)]
                ++ construct_events this (copied E (data_ rp)))).
Proof.
  intros Hnd Hall Hinst Hne Ht Hokt Hp Hokp.
  unfold assign_copy, bind. rewrite Hall.
  rewrite (destroySelf_ok _ _ _ Hnd Ht Hokt).
  erewrite get_id_ok by lk.
  erewrite set_id_ok by lk.
  erewrite (visit_copy _ this p); [| by right | done | done | lk | done | lk | done].
  simpl. rewrite !insert_insert_eq, <- !app_assoc. simpl.
  by destruct (data_ rp) as [[]|].
Qed.

Lemma assign_copy_self this s rt :
  NoDup (types Base Derived) ->
  H.all_copyable E Derived = true ->
  instantiates Base Derived (types Base Derived) (copy_assign_cb E this) = true ->
  heap s !! this = Some rt -> rep_ok E Base Derived rt ->
  assign_copy E Base Derived this this s
  = Ok tt (mkState
             (<[this := mkPoly None 0]> (heap s))
             (trace s ++ destroy_events this rt
                ++ [EvSetTag this 0; EvSetTag this 0])).
Proof.
  intros Hnd Hall Hinst Ht Hokt.
  unfold assign_copy, bind. rewrite Hall.
  rewrite (destroySelf_ok _ _ _ Hnd Ht Hokt).
  erewrite get_id_ok by lk.
  erewrite set_id_ok by lk.
  erewrite visit_empty; [| lk | done | done].
  simpl. by rewrite !insert_insert_eq, <- !app_assoc.
Qed.

Lemma assign_move_ok this p s rt rp :
  NoDup (types Base Derived) ->
  H.all_movable E Derived = true ->
  instantiates Base Derived (types Base Derived) (move_assign_cb E this) = true ->
  this <> p ->
  heap s !! this = Some rt -> rep_ok E Base Derived rt ->
  heap s !! p = Some rp -> rep_ok E Base Derived rp ->
  assign_move E Base Derived this p s
  = Ok tt (mkState
             (<[p := mkPoly None 0]>
                (<[this := mkPoly (moved_to E (data_ rp)) (id_ rp)]> (heap s)))
             (trace s ++ destroy_events this rt
                ++ [EvSetTag this 0; EvSetTag this (id_ rp)]
                ++ construct_events this (moved_to E (data_ rp))
                ++ destroy_events p (mkPoly (moved_from E (data_ rp)) (id_ rp))
                ++ [EvSetTag p 0])).
Proof.
  intros Hnd Hall Hinst Hne Ht Hokt Hp Hokp.
  unfold assign_move, bind. rewrite Hall.
  rewrite (destroySelf_ok _ _ _ Hnd Ht Hokt).
  erewrite get_id_ok by lk.
  erewrite set_id_ok by lk.
  erewrite (visit_move _ this p); [| by right | done | done | lk | done | lk | done].
  erewrite destroySelf_ok; [| done | lk | by apply rep_ok_moved_from].
  simpl. rewrite !insert_insert_eq.
  rewrite (heap_swap _ this p) by done.
  rewrite !insert_insert_eq.
  rewrite <- !app_assoc. simpl.
  by destruct (data_ rp) as [[]|].
Qed.

Lemma assign_move_self this s rt :
  NoDup (types Base Derived) ->
  H.all_movable E Derived = true ->
  instantiates Base Derived (types Base Derived) (move_assign_cb E this) = true ->
  heap s !! this = Some rt -> rep_ok E Base Derived rt ->
  assign_move E Base Derived this this s
  = Ok tt (mkState
             (<[this := mkPoly None 0]> (heap s))
             (trace s ++ destroy_events this rt
                ++ [EvSetTag this 0; EvSetTag this 0; EvSetTag this 0])).
Proof.
  intros Hnd Hall Hinst Ht Hokt.
  unfold assign_move, bind. rewrite Hall.
  rewrite (destroySelf_ok _ _ _ Hnd Ht Hokt).
  erewrite get_id_ok by lk.
  erewrite set_id_ok by lk.
  erewrite visit_empty; [| lk | done | done].
  erewrite destroySelf_ok; [| done | lk | apply rep_ok_empty].
  simpl. by rewrite !insert_insert_eq, <- !app_assoc.
Qed.

(** The common tail of the two value assignments. *)
Lemma install_ok this U w k s rt :
  NoDup (types Base Derived) ->
  heap s !! this = Some rt -> rep_ok E Base Derived rt ->
  bind (destroySelf Base Derived this)
    (fun _ => bind (set_id this k) (fun _ => placement_new this U w)) s
  = Ok tt (mkState
             (<[this := mkPoly (Some (U, w)) k]> (heap s))
             (trace s ++ destroy_events this rt
                ++ [EvSetTag this 0; EvSetTag this k; EvConstruct this U w])).
Proof.
  intros Hnd Ht Hokt. unfold bind.
  rewrite (destroySelf_ok _ _ _ Hnd Ht Hokt).
  erewrite set_id_ok by lk.
  erewrite placement_new_ok; [| lk | done].
  simpl. by rewrite !insert_insert_eq, <- !app_assoc.
Qed.

Lemma construct_ok this U w k s :
  heap s !! this = None ->
  bind (alloc this k) (fun _ => placement_new this U w) s
  = Ok tt (mkState
             (<[this := mkPoly (Some (U, w)) k]> (heap s))
             (trace s ++ [EvSetTag this k; EvConstruct this U w])).
Proof.
  intros Ht. unfold bind. rewrite (alloc_ok _ _ _ Ht).
  erewrite placement_new_ok; [| lk | done].
  simpl. by rewrite !insert_insert_eq, <- !app_assoc.
Qed.

(** ** Observers on a known store *)

Lemma isEmpty_ok l r s :
  heap s !! l = Some r -> isEmpty l s = Ok (id_ r =? 0) s.
Proof. intros Hl. unfold isEmpty, bind. by rewrite (get_id_ok _ _ _ Hl). Qed.

Lemma holdsAny_ok l r s :
  heap s !! l = Some r -> holdsAny l s = Ok (negb (id_ r =? 0)) s.
Proof. intros Hl. unfold holdsAny, bind. by rewrite (get_id_ok _ _ _ Hl). Qed.

Lemma holdsType_ok T k l r s :
  ID Base Derived T = Some k ->
  heap s !! l = Some r ->
  holdsType Base Derived T l s = Ok (id_ r =? k) s.
Proof.
  intros HT Hl. unfold holdsType.
  rewrite (proj2 (matches_any_elem T _) (ID_elem _ _ HT)), HT.
  unfold bind. by rewrite (get_id_ok _ _ _ Hl).
Qed.

Lemma holds_rep s l T v :
  holds E Base Derived s l T v ->
  exists k, ID Base Derived T = Some k /\
            heap s !! l = Some (mkPoly (Some (T, v)) k) /\
            rep_ok E Base Derived (mkPoly (Some (T, v)) k).
Proof. intros (k & HT & Ha & Hl). exists k. by repeat split. Qed.

Lemma holds_intro s l T v k :
  ID Base Derived T = Some k -> is_abstract E T = false ->
  heap s !! l = Some (mkPoly (Some (T, v)) k) ->
  holds E Base Derived s l T v.
Proof. intros. exists k. by repeat split. Qed.

Lemma calls_snoc (t : list (Event (Ty := Ty) (V := V))) P :
  calls (t ++ [EvCall P]) = calls t + 1.
Proof.
  induction t as [|e t IH]; [done |]. simpl.
  destruct e; rewrite IH; lia.
Qed.

(** ** Properties of the specification *)

(** C3 (as the code has it): the registry is built over the pack
    [Base, D1..Dn], so the base class takes tag 1 and the i-th derived
    class (counting from 0 in [Derived]) takes tag i + 2; every tag lies in
    [1, n + 1], 0 being left for the empty state; and the tag-to-type
    direction inverts the type-to-tag direction: [IGetTy] at the tag of
    [T], that is [GetTy] at that tag minus one, is [T]. *)
Theorem C3_tags_count_from_base :
  NoDup (types Base Derived) ->
  ID Base Derived Base = Some 1 /\
  (forall i T, Derived !! i = Some T -> ID Base Derived T = Some (i + 2)) /\
  (forall T k, ID Base Derived T = Some k -> 1 <= k <= length Derived + 1) /\
  (forall T, T ∈ types Base Derived ->
     exists k, ID Base Derived T = Some k /\
       H.IGetTy_set (BaseType Base Derived) k = Some T /\
       H.GetTy (BaseType Base Derived) (k - 1) = Some T).
Proof.
  intros Hnd. repeat split.
  - by apply (ID_nodup Base 0).
  - intros i T Hi. replace (i + 2) with (S i + 1) by lia.
    by apply ID_nodup.
  - by eapply ID_range.
  - by eapply ID_range.
  - intros T (i & Hi)%list_elem_of_lookup. exists (i + 1).
    split; [by apply ID_nodup |]. split.
    + by apply IGetTy_set_at.
    + replace (i + 1 - 1) with i by lia. by apply GetTy_at.
Qed.

(** C2: [visit], in its mutable and in its const overload, leaves the
    store as it is and never runs the visitor on an empty container; on a
    container whose tag is that of [T] it is exactly one call of the
    visitor, instantiated at [T], on a pointer of static type [T] to the
    container's storage.  A probing visitor is recorded zero times and
    once. *)
Theorem C2_visit_calls_exactly_once cst F this s r :
  NoDup (types Base Derived) ->
  (forall T, T ∈ types Base Derived -> is_Some (F T)) ->
  heap s !! this = Some r ->
  (id_ r = 0 ->
     visit Base Derived cst F this s = Ok tt s /\
     visit Base Derived cst probe this s = Ok tt s) /\
  (forall T f, ID Base Derived T = Some (id_ r) -> F T = Some f ->
     visit Base Derived cst F this s = f (mkPtr T (Some this) cst) s /\
     exists s', visit Base Derived cst probe this s = Ok tt s' /\
       heap s' = heap s /\
       trace s' = trace s ++ [EvCall (mkPtr T (Some this) cst)] /\
       calls (trace s') = calls (trace s) + 1).
Proof.
  intros Hnd HF Hr.
  pose proof (instantiates_total F Hnd HF) as HiF.
  pose proof (instantiates_probe Hnd) as HiP.
  split.
  - intros H0. split; by eapply visit_empty.
  - intros T f HT Hf. split; [by eapply visit_hit |].
    rewrite (visit_hit cst probe this s r T (fun P => emit (EvCall P))
               Hr HT eq_refl HiP).
    eexists. split; [reflexivity |].
    simpl. by rewrite calls_snoc.
Qed.

(** C7: [operator->], mutable and const.  On an empty container the
    assertion on [holdsAny()] fails in a build that keeps assertions; on a
    container that holds a value the result is, in every build, the
    non-null [Base] pointer to the container's storage. *)
Theorem C7_arrow_requires_a_value cst this s r :
  heap s !! this = Some r ->
  (id_ r = 0 ->
     operator_arrow Base false cst this s = Fail AssertFailed) /\
  (id_ r <> 0 ->
     forall NDEBUG,
       operator_arrow Base NDEBUG cst this s
       = Ok (mkPtr Base (Some this) cst) s).
Proof.
  intros Hr. split.
  - intros H0. unfold operator_arrow, bind.
    rewrite (holdsAny_ok _ _ _ Hr), H0. done.
  - intros Hne NDEBUG. unfold operator_arrow, getPtr, bind.
    rewrite (holdsAny_ok _ _ _ Hr).
    destruct (Nat.eqb_spec (id_ r) 0) as [| _]; [done |].
    assert (POLY_ASSERT NDEBUG (negb false) s = Ok tt s) as ->
      by (unfold POLY_ASSERT; by destruct NDEBUG).
    rewrite (get_id_ok _ _ _ Hr).
    by destruct (Nat.eqb_spec (id_ r) 0).
Qed.

Lemma Poly_const_U_ok this U u k s :
  ID Base Derived U = Some k ->
  H.copyable E U = true -> is_abstract E U = false ->
  heap s !! this = None ->
  Poly_const_U E Base Derived this U u s
  = Ok tt (mkState
             (<[this := mkPoly (Some (U, copy_ctor E U u)) k]> (heap s))
             (trace s ++ [EvSetTag this k;
                          EvConstruct this U (copy_ctor E U u)])).
Proof.
  intros HU Hc Ha Ht. unfold Poly_const_U.
  rewrite (proj2 (matches_any_elem U _) (ID_elem _ _ HU)), Hc, HU, Ha.
  simpl. by apply construct_ok.
Qed.

Lemma Poly_rvalue_U_ok this U u k s :
  ID Base Derived U = Some k ->
  H.movable E U = true -> is_abstract E U = false ->
  heap s !! this = None ->
  Poly_rvalue_U E Base Derived this U u s
  = Ok tt (mkState
             (<[this := mkPoly (Some (U, fst (move_ctor E U u))) k]> (heap s))
             (trace s ++ [EvSetTag this k;
                          EvConstruct this U (fst (move_ctor E U u))])).
Proof.
  intros HU Hc Ha Ht. unfold Poly_rvalue_U.
  rewrite (proj2 (matches_any_elem U _) (ID_elem _ _ HU)), Hc, HU, Ha.
  simpl. by apply construct_ok.
Qed.

Lemma assign_const_U_ok this U u k s rt :
  NoDup (types Base Derived) ->
  ID Base Derived U = Some k ->
  H.copyable E U = true -> is_abstract E U = false ->
  heap s !! this = Some rt -> rep_ok E Base Derived rt ->
  assign_const_U E Base Derived this U u s
  = Ok tt (mkState
             (<[this := mkPoly (Some (U, copy_ctor E U u)) k]> (heap s))
             (trace s ++ destroy_events this rt
                ++ [EvSetTag this 0; EvSetTag this k;
                    EvConstruct this U (copy_ctor E U u)])).
Proof.
  intros Hnd HU Hc Ha Ht Hok. unfold assign_const_U.
  rewrite (proj2 (matches_any_elem U _) (ID_elem _ _ HU)), Hc, HU, Ha.
  simpl. by apply install_ok.
Qed.

Lemma assign_rvalue_U_ok this U u k s rt :
  NoDup (types Base Derived) ->
  ID Base Derived U = Some k ->
  H.movable E U = true -> is_abstract E U = false ->
  heap s !! this = Some rt -> rep_ok E Base Derived rt ->
  assign_rvalue_U E Base Derived this U u s
  = Ok tt (mkState
             (<[this := mkPoly (Some (U, fst (move_ctor E U u))) k]> (heap s))
             (trace s ++ destroy_events this rt
                ++ [EvSetTag this 0; EvSetTag this k;
                    EvConstruct this U (fst (move_ctor E U u))])).
Proof.
  intros Hnd HU Hc Ha Ht Hok. unfold assign_rvalue_U.
  rewrite (proj2 (matches_any_elem U _) (ID_elem _ _ HU)), Hc, HU, Ha.
  simpl. by apply install_ok.
Qed.

Lemma value_ops_reject_abstract this U u s :
  is_abstract E U = true ->
  Poly_const_U E Base Derived this U u s = Fail IllFormed /\
  Poly_rvalue_U E Base Derived this U u s = Fail IllFormed /\
  assign_const_U E Base Derived this U u s = Fail IllFormed /\
  assign_rvalue_U E Base Derived this U u s = Fail IllFormed.
Proof.
  intros Ha.
  unfold Poly_const_U, Poly_rvalue_U, assign_const_U, assign_rvalue_U.
  rewrite Ha. simpl.
  repeat split;
    repeat match goal with
           | |- context [if ?b then _ else _] => destruct b
           | |- context [match ID ?B ?D ?T with _ => _ end] =>
               destruct (ID B D T)
           end; done.
Qed.

(** C10: with a concrete base class, a [Base] value is accepted by the
    two value constructors and the two value assignments (the accepted
    types are exactly [Base, D1..Dn]); the [Base] object is stored in the
    container under tag 1, the first slot, and [holdsType<Base>()] is
    true.  With an abstract base class all four are rejected at compile
    time. *)
Theorem C10_concrete_base_is_a_held_type this u s :
  NoDup (types Base Derived) ->
  (forall U, H.matches_any U (types Base Derived) = true <->
             U = Base \/ U ∈ Derived) /\
  ID Base Derived Base = Some 1 /\
  (is_abstract E Base = false ->
     (H.copyable E Base = true -> heap s !! this = None ->
        exists s',
          Poly_const_U E Base Derived this Base u s = Ok tt s' /\
          heap s' !! this
            = Some (mkPoly (Some (Base, copy_ctor E Base u)) 1) /\
          holdsType Base Derived Base this s' = Ok true s') /\
     (H.movable E Base = true -> heap s !! this = None ->
        exists s',
          Poly_rvalue_U E Base Derived this Base u s = Ok tt s' /\
          heap s' !! this
            = Some (mkPoly (Some (Base, fst (move_ctor E Base u))) 1) /\
          holdsType Base Derived Base this s' = Ok true s') /\
     (H.copyable E Base = true ->
        forall rt, heap s !! this = Some rt -> rep_ok E Base Derived rt ->
        exists s',
          assign_const_U E Base Derived this Base u s = Ok tt s' /\
          heap s' !! this
            = Some (mkPoly (Some (Base, copy_ctor E Base u)) 1) /\
          holdsType Base Derived Base this s' = Ok true s') /\
     (H.movable E Base = true ->
        forall rt, heap s !! this = Some rt -> rep_ok E Base Derived rt ->
        exists s',
          assign_rvalue_U E Base Derived this Base u s = Ok tt s' /\
          heap s' !! this
            = Some (mkPoly (Some (Base, fst (move_ctor E Base u))) 1) /\
          holdsType Base Derived Base this s' = Ok true s')) /\
  (is_abstract E Base = true ->
     Poly_const_U E Base Derived this Base u s = Fail IllFormed /\
     Poly_rvalue_U E Base Derived this Base u s = Fail IllFormed /\
     assign_const_U E Base Derived this Base u s = Fail IllFormed /\
     assign_rvalue_U E Base Derived this Base u s = Fail IllFormed).
Proof.
  intros Hnd.
  assert (HB : ID Base Derived Base = Some 1) by (by apply (ID_nodup Base 0)).
  split; [| split; [done | split]].
  - intros U. rewrite matches_any_elem. unfold types.
    by rewrite elem_of_cons.
  - intros Ha. repeat split.
    + intros Hc Ht. eexists. split; [by apply Poly_const_U_ok |].
      split; [lk |]. erewrite holdsType_ok; [| done | lk]. done.
    + intros Hc Ht. eexists. split; [by apply Poly_rvalue_U_ok |].
      split; [lk |]. erewrite holdsType_ok; [| done | lk]. done.
    + intros Hc rt Ht Hok. eexists.
      split; [by eapply assign_const_U_ok |].
      split; [lk |]. erewrite holdsType_ok; [| done | lk]. done.
    + intros Hc rt Ht Hok. eexists.
      split; [by eapply assign_rvalue_U_ok |].
      split; [lk |]. erewrite holdsType_ok; [| done | lk]. done.
  - apply value_ops_reject_abstract.
Qed.

(** C6: value assignment (from [const U&] and from [U&&]) to a container
    that holds an [A]: the [A] object is destroyed, then the tag is reset
    and set, then the [B] object is constructed, also when [B] is [A];
    afterwards [holdsType<B>()] is true and, when [A] differs from [B],
    [holdsType<A>()] is false. *)
Theorem C6_reassign_destroys_before_constructing this A a B b s :
  NoDup (types Base Derived) ->
  holds E Base Derived s this A a ->
  B ∈ types Base Derived ->
  is_abstract E B = false ->
  exists kB, ID Base Derived B = Some kB /\
  (H.copyable E B = true ->
     exists s',
       assign_const_U E Base Derived this B b s = Ok tt s' /\
       trace s' = trace s ++ [EvDestroy this A a; EvSetTag this 0;
                              EvSetTag this kB;
                              EvConstruct this B (copy_ctor E B b)] /\
       holds E Base Derived s' this B (copy_ctor E B b) /\
       holdsType Base Derived B this s' = Ok true s' /\
       (A <> B -> holdsType Base Derived A this s' = Ok false s')) /\
  (H.movable E B = true ->
     exists s',
       assign_rvalue_U E Base Derived this B b s = Ok tt s' /\
       trace s' = trace s ++ [EvDestroy this A a; EvSetTag this 0;
                              EvSetTag this kB;
                              EvConstruct this B (fst (move_ctor E B b))] /\
       holds E Base Derived s' this B (fst (move_ctor E B b)) /\
       holdsType Base Derived B this s' = Ok true s' /\
       (A <> B -> holdsType Base Derived A this s' = Ok false s')).
Proof.
  intros Hnd (kA & HA & Hok & Ht)%holds_rep HB Ha.
  destruct (ID_total B Hnd HB) as [kB HkB]. exists kB. split; [done |].
  assert (HAB : A <> B -> (kB =? kA) = false).
  { intros Hne. apply Nat.eqb_neq. intros ->. apply Hne.
    by eapply ID_inj. }
  split; intros Hc; eexists.
  - split; [by eapply assign_const_U_ok |]. simpl.
    split; [done |]. split; [exists kB; repeat split; [done | done | lk] |].
    split.
    + erewrite holdsType_ok; [| done | lk]. simpl. by rewrite Nat.eqb_refl.
    + intros Hne. erewrite holdsType_ok; [| done | lk]. simpl.
      by rewrite HAB.
  - split; [by eapply assign_rvalue_U_ok |]. simpl.
    split; [done |]. split; [exists kB; repeat split; [done | done | lk] |].
    split.
    + erewrite holdsType_ok; [| done | lk]. simpl. by rewrite Nat.eqb_refl.
    + intros Hne. erewrite holdsType_ok; [| done | lk]. simpl.
      by rewrite HAB.
Qed.

(** C1: a move between two containers, by the move constructor or by move
    assignment.  When the source holds a [T], the destination ends up
    holding a [T] ([holdsType<T>()] is true) and the source is empty: its
    payload has been destroyed and its tag reset to 0.  When the source
    is empty the destination ends up empty. *)
Theorem C1_move_leaves_source_empty this p s :
  NoDup (types Base Derived) ->
  H.all_movable E Derived = true ->
  this <> p ->
  (forall T v, holds E Base Derived s p T v ->
     (ctor_pack_ok E Base Derived (is_move_constructible E) = true ->
      heap s !! this = None ->
      exists s' k,
        ID Base Derived T = Some k /\
        Poly_move E Base Derived this p s = Ok tt s' /\
        holdsType Base Derived T this s' = Ok true s' /\
        isEmpty p s' = Ok true s' /\
        heap s' !! this
          = Some (mkPoly (Some (T, fst (move_ctor E T v))) k) /\
        heap s' !! p = Some (mkPoly None 0) /\
        trace s' = trace s ++
          [EvSetTag this k; EvConstruct this T (fst (move_ctor E T v));
           EvDestroy p T (snd (move_ctor E T v)); EvSetTag p 0]) /\
     (assign_pack_ok E Base Derived (is_move_constructible E) = true ->
      forall rt, heap s !! this = Some rt -> rep_ok E Base Derived rt ->
      exists s' k,
        ID Base Derived T = Some k /\
        assign_move E Base Derived this p s = Ok tt s' /\
        holdsType Base Derived T this s' = Ok true s' /\
        isEmpty p s' = Ok true s' /\
        heap s' !! this
          = Some (mkPoly (Some (T, fst (move_ctor E T v))) k) /\
        heap s' !! p = Some (mkPoly None 0) /\
        trace s' = trace s ++ destroy_events this rt ++
          [EvSetTag this 0; EvSetTag this k;
           EvConstruct this T (fst (move_ctor E T v));
           EvDestroy p T (snd (move_ctor E T v)); EvSetTag p 0])) /\
  (empty_at s p ->
     (ctor_pack_ok E Base Derived (is_move_constructible E) = true ->
      heap s !! this = None ->
      exists s',
        Poly_move E Base Derived this p s = Ok tt s' /\
        isEmpty this s' = Ok true s' /\ isEmpty p s' = Ok true s') /\
     (assign_pack_ok E Base Derived (is_move_constructible E) = true ->
      forall rt, heap s !! this = Some rt -> rep_ok E Base Derived rt ->
      exists s',
        assign_move E Base Derived this p s = Ok tt s' /\
        isEmpty this s' = Ok true s' /\ isEmpty p s' = Ok true s')).
Proof.
  intros Hnd Hall Hne. split.
  - intros T v (k & HT & Hok & Hp)%holds_rep. split.
    + intros Hpack Ht. eexists _, k. split; [done |].
      split; [by eapply Poly_move_ok; eauto using instantiates_move_ctor_cb |].
      simpl. split; [erewrite holdsType_ok; [| done | lk' ] |].
      { simpl. by rewrite Nat.eqb_refl. }
      split; [erewrite isEmpty_ok by lk'; done |].
      repeat split; lk'.
    + intros Hpack rt Ht Hokt. eexists _, k. split; [done |].
      split; [by eapply assign_move_ok;
                eauto using instantiates_move_assign_cb |].
      simpl. split; [erewrite holdsType_ok; [| done | lk' ] |].
      { simpl. by rewrite Nat.eqb_refl. }
      split; [erewrite isEmpty_ok by lk'; done |].
      repeat split; lk'.
  - intros Hp. unfold empty_at in Hp. split.
    + intros Hpack Ht. eexists.
      split; [by eapply Poly_move_ok;
                eauto using instantiates_move_ctor_cb, rep_ok_empty |].
      simpl. split; erewrite isEmpty_ok by lk'; done.
    + intros Hpack rt Ht Hokt. eexists.
      split; [by eapply assign_move_ok;
                eauto using instantiates_move_assign_cb, rep_ok_empty |].
      simpl. split; erewrite isEmpty_ok by lk'; done.
Qed.

(** C5 (as the code has it): a copy, by the copy constructor or by copy
    assignment between two distinct containers, from a container that
    holds a [T] of value [v]: the destination ends up holding the [T]
    that the copy constructor of [T] makes from [v] (a [T] of value [v]
    when that constructor copies faithfully), and no other container of
    the store, the source among them, is changed. *)
Theorem C5_copy_between_distinct_containers this p s T v :
  NoDup (types Base Derived) ->
  H.all_copyable E Derived = true ->
  this <> p ->
  holds E Base Derived s p T v ->
  (ctor_pack_ok E Base Derived (is_copy_constructible E) = true ->
   heap s !! this = None ->
   exists s',
     Poly_copy E Base Derived this p s = Ok tt s' /\
     holds E Base Derived s' this T (copy_ctor E T v) /\
     (copy_ctor E T v = v -> holds E Base Derived s' this T v) /\
     holdsType Base Derived T this s' = Ok true s' /\
     holds E Base Derived s' p T v /\
     (forall l, l <> this -> heap s' !! l = heap s !! l)) /\
  (assign_pack_ok E Base Derived (is_copy_constructible E) = true ->
   forall rt, heap s !! this = Some rt -> rep_ok E Base Derived rt ->
   exists s',
     assign_copy E Base Derived this p s = Ok tt s' /\
     holds E Base Derived s' this T (copy_ctor E T v) /\
     (copy_ctor E T v = v -> holds E Base Derived s' this T v) /\
     holdsType Base Derived T this s' = Ok true s' /\
     holds E Base Derived s' p T v /\
     (forall l, l <> this -> heap s' !! l = heap s !! l)).
Proof.
  intros Hnd Hall Hne Hholds.
  pose proof Hholds as (k & HT & Ha & Hp).
  assert (Hok : rep_ok E Base Derived (mkPoly (Some (T, v)) k)) by done.
  split.
  - intros Hpack Ht. eexists.
    split; [by eapply Poly_copy_ok; eauto using instantiates_copy_ctor_cb |].
    simpl.
    split; [apply (holds_intro _ _ _ _ k); [done | done | lk'] |].
    split; [intros Heq; apply (holds_intro _ _ _ _ k);
            [done | done | lk'; by rewrite Heq] |].
    split; [erewrite holdsType_ok; [| done | lk']; simpl;
            by rewrite Nat.eqb_refl |].
    split; [apply (holds_intro _ _ _ _ k); [done | done | lk'] |].
    intros l Hl. lk'.
  - intros Hpack rt Ht Hokt. eexists.
    split; [by eapply assign_copy_ok;
              eauto using instantiates_copy_assign_cb |].
    simpl.
    split; [apply (holds_intro _ _ _ _ k); [done | done | lk'] |].
    split; [intros Heq; apply (holds_intro _ _ _ _ k);
            [done | done | lk'; by rewrite Heq] |].
    split; [erewrite holdsType_ok; [| done | lk']; simpl;
            by rewrite Nat.eqb_refl |].
    split; [apply (holds_intro _ _ _ _ k); [done | done | lk'] |].
    intros l Hl. lk'.
Qed.

(** C9: self-assignment of a container that holds a value.  Both
    [x = x] and [x = std::move(x)] first destroy the payload of [x] and
    reset its tag; the source they then read is that emptied container,
    so [x] ends up empty and the value is gone. *)
Theorem C9_self_assignment_empties x s T v :
  NoDup (types Base Derived) ->
  holds E Base Derived s x T v ->
  (H.all_copyable E Derived = true ->
   assign_pack_ok E Base Derived (is_copy_constructible E) = true ->
   exists s',
     assign_copy E Base Derived x x s = Ok tt s' /\
     isEmpty x s' = Ok true s' /\
     heap s' !! x = Some (mkPoly None 0) /\
     trace s' = trace s ++
       [EvDestroy x T v; EvSetTag x 0; EvSetTag x 0]) /\
  (H.all_movable E Derived = true ->
   assign_pack_ok E Base Derived (is_move_constructible E) = true ->
   exists s',
     assign_move E Base Derived x x s = Ok tt s' /\
     isEmpty x s' = Ok true s' /\
     heap s' !! x = Some (mkPoly None 0) /\
     trace s' = trace s ++
       [EvDestroy x T v; EvSetTag x 0; EvSetTag x 0; EvSetTag x 0]).
Proof.
  intros Hnd (k & HT & Hok & Hx)%holds_rep. split.
  - intros Hall Hpack. eexists.
    split; [by eapply assign_copy_self;
              eauto using instantiates_copy_assign_cb |].
    simpl. split; [erewrite isEmpty_ok by lk'; done |].
    split; [lk' | done].
  - intros Hall Hpack. eexists.
    split; [by eapply assign_move_self;
              eauto using instantiates_move_assign_cb |].
    simpl. split; [erewrite isEmpty_ok by lk'; done |].
    split; [lk' | done].
Qed.

(** ** [std::swap] *)

Lemma rep_ok_moved_to rp :
  rep_ok E Base Derived rp ->
  rep_ok E Base Derived (mkPoly (moved_to E (data_ rp)) (id_ rp)).
Proof. by destruct rp as [[[T v]|] k]. Qed.

Lemma assign_pack_ctor_pack cc :
  assign_pack_ok E Base Derived cc = true ->
  ctor_pack_ok E Base Derived cc = true.
Proof.
  unfold assign_pack_ok, ctor_pack_ok. rewrite !forallb_forall.
  intros Hall T HT. specialize (Hall T HT).
  apply andb_true_iff in Hall as [_ ->]. apply orb_true_r.
Qed.

Lemma Poly_dtor_ok l r s :
  NoDup (types Base Derived) ->
  heap s !! l = Some r -> rep_ok E Base Derived r ->
  Poly_dtor Base Derived l s
  = Ok tt (mkState (delete l (heap s))
                   (trace s ++ destroy_events l r ++ [EvSetTag l 0])).
Proof.
  intros Hnd Hl Hok. unfold Poly_dtor, bind.
  rewrite (destroySelf_ok _ _ _ Hnd Hl Hok). unfold dealloc. simpl.
  by rewrite delete_insert_eq.
Qed.

Lemma std_swap_ok tmp a b s ra rb :
  NoDup (types Base Derived) ->
  H.all_movable E Derived = true ->
  assign_pack_ok E Base Derived (is_move_constructible E) = true ->
  heap s !! tmp = None ->
  a <> b ->
  heap s !! a = Some ra -> rep_ok E Base Derived ra ->
  heap s !! b = Some rb -> rep_ok E Base Derived rb ->
  exists s',
    std_swap E Base Derived tmp a b s = Ok tt s' /\
    heap s'
    = <[b := mkPoly (moved_to E (moved_to E (data_ ra))) (id_ ra)]>
        (<[a := mkPoly (moved_to E (data_ rb)) (id_ rb)]> (heap s)).
Proof.
  intros Hnd Hall Hpack Htmp Hab Ha Hoka Hb Hokb.
  assert (tmp <> a) by congruence. assert (tmp <> b) by congruence.
  pose proof (assign_pack_ctor_pack _ Hpack) as Hcpack.
  unfold std_swap, bind.
  erewrite Poly_move_ok; eauto using instantiates_move_ctor_cb.
  erewrite (assign_move_ok a b);
    [| done | done | by apply instantiates_move_assign_cb | done
     | lk' | apply rep_ok_empty | lk' | done].
  erewrite (assign_move_ok b tmp);
    [| done | done | by apply instantiates_move_assign_cb | done
     | lk' | apply rep_ok_empty | lk' | by apply rep_ok_moved_to].
  erewrite Poly_dtor_ok; [| done | lk' | apply rep_ok_empty].
  eexists. split; [reflexivity |]. simpl.
  apply map_eq. intros l.
  destruct (decide (l = tmp)) as [-> |];
    [| destruct (decide (l = a)) as [-> |];
       [| destruct (decide (l = b)) as [-> |]]]; lk'.
Qed.

Lemma std_swap_self tmp a s ra :
  NoDup (types Base Derived) ->
  H.all_movable E Derived = true ->
  assign_pack_ok E Base Derived (is_move_constructible E) = true ->
  heap s !! tmp = None ->
  heap s !! a = Some ra -> rep_ok E Base Derived ra ->
  exists s',
    std_swap E Base Derived tmp a a s = Ok tt s' /\
    heap s'
    = <[a := mkPoly (moved_to E (moved_to E (data_ ra))) (id_ ra)]> (heap s).
Proof.
  intros Hnd Hall Hpack Htmp Ha Hoka.
  assert (tmp <> a) by congruence.
  pose proof (assign_pack_ctor_pack _ Hpack) as Hcpack.
  unfold std_swap, bind.
  erewrite Poly_move_ok; eauto using instantiates_move_ctor_cb.
  erewrite (assign_move_self a);
    [| done | done | by apply instantiates_move_assign_cb
     | lk' | apply rep_ok_empty].
  erewrite (assign_move_ok a tmp);
    [| done | done | by apply instantiates_move_assign_cb | done
     | lk' | apply rep_ok_empty | lk' | by apply rep_ok_moved_to].
  erewrite Poly_dtor_ok; [| done | lk' | apply rep_ok_empty].
  eexists. split; [reflexivity |]. simpl.
  apply map_eq. intros l.
  destruct (decide (l = tmp)) as [-> |];
    [| destruct (decide (l = a)) as [-> |]]; lk'.
Qed.

(** C8: [std::swap] (move construction of a temporary, two move
    assignments, destruction of the temporary).  On two distinct
    non-empty containers it exchanges what they hold, each payload having
    gone through the move constructor of its type (once for the one, twice
    for the other); on one container taken twice it leaves the held type
    in place, the payload having gone through its move constructor twice.
    With move constructors that hand the value over unchanged, the two
    representations are exchanged, and the self-swap leaves the store as
    it was. *)
Theorem C8_swap_exchanges tmp a b s Ta va Tb vb :
  NoDup (types Base Derived) ->
  H.all_movable E Derived = true ->
  assign_pack_ok E Base Derived (is_move_constructible E) = true ->
  heap s !! tmp = None ->
  holds E Base Derived s a Ta va ->
  holds E Base Derived s b Tb vb ->
  (a <> b ->
   exists s',
     std_swap E Base Derived tmp a b s = Ok tt s' /\
     holds E Base Derived s' a Tb (fst (move_ctor E Tb vb)) /\
     holds E Base Derived s' b Ta
       (fst (move_ctor E Ta (fst (move_ctor E Ta va)))) /\
     (forall l, l <> a -> l <> b -> heap s' !! l = heap s !! l) /\
     ((forall T v, fst (move_ctor E T v) = v) ->
      holds E Base Derived s' a Tb vb /\ holds E Base Derived s' b Ta va /\
      heap s' !! a = heap s !! b /\ heap s' !! b = heap s !! a)) /\
  (exists s',
     std_swap E Base Derived tmp a a s = Ok tt s' /\
     holds E Base Derived s' a Ta
       (fst (move_ctor E Ta (fst (move_ctor E Ta va)))) /\
     (forall l, l <> a -> heap s' !! l = heap s !! l) /\
     ((forall T v, fst (move_ctor E T v) = v) -> heap s' = heap s)).
Proof.
  intros Hnd Hall Hpack Htmp (ka & HTa & Haa & Ha) (kb & HTb & Hab & Hb).
  assert (Hoka : rep_ok E Base Derived (mkPoly (Some (Ta, va)) ka)) by done.
  assert (Hokb : rep_ok E Base Derived (mkPoly (Some (Tb, vb)) kb)) by done.
  split.
  - intros Hne.
    destruct (std_swap_ok tmp a b s _ _ Hnd Hall Hpack Htmp Hne
                Ha Hoka Hb Hokb) as (s' & Hrun & Hheap).
    simpl in Hheap. exists s'. split; [done |].
    split; [apply (holds_intro _ _ _ _ kb); [done | done |];
            rewrite Hheap; lk' |].
    split; [apply (holds_intro _ _ _ _ ka); [done | done |];
            rewrite Hheap; lk' |].
    split; [intros l ? ?; rewrite Hheap; lk' |].
    intros Hfaith.
    split; [apply (holds_intro _ _ _ _ kb); [done | done |];
            rewrite Hheap; lk'; by rewrite Hfaith |].
    split; [apply (holds_intro _ _ _ _ ka); [done | done |];
            rewrite Hheap; lk'; by rewrite !Hfaith |].
    rewrite Hheap, Ha, Hb. split; lk'; by rewrite ?Hfaith.
  - destruct (std_swap_self tmp a s _ Hnd Hall Hpack Htmp Ha Hoka)
      as (s' & Hrun & Hheap).
    simpl in Hheap. exists s'. split; [done |].
    split; [apply (holds_intro _ _ _ _ ka); [done | done |];
            rewrite Hheap; lk' |].
    split; [intros l ?; rewrite Hheap; lk' |].
    intros Hfaith. rewrite Hheap, !Hfaith. by apply insert_id.
Qed.

(** ** Preservation of the representation invariant *)

Lemma heap_ok_insert (m : gmap nat (PolyRep (Ty := Ty) (V := V))) l r :
  heap_ok E Base Derived m ->
  rep_ok E Base Derived r ->
  heap_ok E Base Derived (<[l := r]> m).
Proof.
  intros Hinv Hok l' r'. destruct (decide (l = l')) as [-> |].
  - rewrite lookup_insert_eq. by intros [= <-].
  - rewrite lookup_insert_ne by done. apply (Hinv l' r').
Qed.

Lemma heap_ok_delete (m : gmap nat (PolyRep (Ty := Ty) (V := V))) l :
  heap_ok E Base Derived m ->
  heap_ok E Base Derived (delete l m).
Proof.
  intros Hinv l' r'. destruct (decide (l = l')) as [-> |].
  - by rewrite lookup_delete_eq.
  - rewrite lookup_delete_ne by done. apply (Hinv l' r').
Qed.

Lemma rep_ok_copied rp :
  rep_ok E Base Derived rp ->
  rep_ok E Base Derived (mkPoly (copied E (data_ rp)) (id_ rp)).
Proof. by destruct rp as [[[T v]|] k]. Qed.

Lemma rep_ok_value U w k :
  ID Base Derived U = Some k -> is_abstract E U = false ->
  rep_ok E Base Derived (mkPoly (Some (U, w)) k).
Proof. done. Qed.

Lemma good_step_refl s :
  inv E Base Derived s -> good_step E Base Derived s s.
Proof. intros. split; [done |]. exists []. by rewrite app_nil_r. Qed.

Lemma rep_ok_tag_nonzero T v k :
  rep_ok E Base Derived (mkPoly (Some (T, v)) k) -> (k =? 0) = false.
Proof. intros [HT%ID_range _]. apply Nat.eqb_neq. simpl in HT. lia. Qed.

Ltac disc :=
  simpl; rewrite ?bool_decide_eq_true_2 by done;
  repeat match goal with
         | H : rep_ok _ _ _ (mkPoly (Some _) _) |- _ =>
             rewrite (rep_ok_tag_nonzero _ _ _ H)
         end;
  done.

Ltac keeps_inv :=
  unfold inv; simpl;
  repeat first [ apply heap_ok_insert | apply heap_ok_delete ];
  first [ assumption | apply rep_ok_empty | idtac ].

Lemma Poly_default_step this s s' :
  inv E Base Derived s ->
  Poly_default this s = Ok tt s' -> good_step E Base Derived s s'.
Proof.
  intros Hinv Hrun. unfold Poly_default, alloc in Hrun.
  destruct (heap s !! this); [done |]. injection Hrun as <-.
  split; [keeps_inv |].
  eexists. split; [reflexivity | disc].
Qed.

Lemma Poly_copy_step this p s s' :
  NoDup (types Base Derived) -> inv E Base Derived s ->
  Poly_copy E Base Derived this p s = Ok tt s' -> good_step E Base Derived s s'.
Proof.
  intros Hnd Hinv Hrun.
  destruct (H.all_copyable E Derived) eqn:Hall;
    [| unfold Poly_copy in Hrun; by rewrite Hall in Hrun].
  destruct (heap s !! p) as [rp|] eqn:Hp;
    [| unfold Poly_copy, bind in Hrun;
       by rewrite Hall, (get_id_fail _ _ Hp) in Hrun].
  destruct (heap s !! this) as [rt|] eqn:Ht.
  { unfold Poly_copy, bind, alloc in Hrun.
    by rewrite Hall, (get_id_ok _ _ _ Hp), Ht in Hrun. }
  destruct (instantiates Base Derived (types Base Derived)
              (copy_ctor_cb E this)) eqn:Hinst.
  2:{ unfold Poly_copy, bind, visit in Hrun.
      by rewrite Hall, (get_id_ok _ _ _ Hp), (alloc_ok _ _ _ Ht), Hinst
        in Hrun. }
  pose proof (Hinv _ _ Hp) as Hokp.
  rewrite (Poly_copy_ok this p s rp Hnd Hall Hinst Ht Hp Hokp) in Hrun.
  injection Hrun as <-.
  split; [keeps_inv; by apply rep_ok_copied |].
  eexists. split; [reflexivity |].
  destruct rp as [[[Tp vp]|] kp]; disc.
Qed.

Lemma Poly_move_step this p s s' :
  NoDup (types Base Derived) -> inv E Base Derived s ->
  Poly_move E Base Derived this p s = Ok tt s' -> good_step E Base Derived s s'.
Proof.
  intros Hnd Hinv Hrun.
  destruct (H.all_movable E Derived) eqn:Hall;
    [| unfold Poly_move in Hrun; by rewrite Hall in Hrun].
  destruct (heap s !! p) as [rp|] eqn:Hp;
    [| unfold Poly_move, bind in Hrun;
       by rewrite Hall, (get_id_fail _ _ Hp) in Hrun].
  destruct (heap s !! this) as [rt|] eqn:Ht.
  { unfold Poly_move, bind, alloc in Hrun.
    by rewrite Hall, (get_id_ok _ _ _ Hp), Ht in Hrun. }
  destruct (instantiates Base Derived (types Base Derived)
              (move_ctor_cb E this)) eqn:Hinst.
  2:{ unfold Poly_move, bind, visit in Hrun.
      by rewrite Hall, (get_id_ok _ _ _ Hp), (alloc_ok _ _ _ Ht), Hinst
        in Hrun. }
  pose proof (Hinv _ _ Hp) as Hokp.
  rewrite (Poly_move_ok this p s rp Hnd Hall Hinst Ht Hp Hokp) in Hrun.
  injection Hrun as <-.
  split; [keeps_inv; by apply rep_ok_moved_to |].
  eexists. split; [reflexivity |].
  destruct rp as [[[Tp vp]|] kp]; disc.
Qed.

Lemma Poly_const_U_step this U u s s' :
  inv E Base Derived s ->
  Poly_const_U E Base Derived this U u s = Ok tt s' ->
  good_step E Base Derived s s'.
Proof.
  intros Hinv Hrun. unfold Poly_const_U in Hrun.
  destruct (H.matches_any U (types Base Derived) && H.copyable E U);
    [| done].
  destruct (ID Base Derived U) as [k|] eqn:HU; [| done].
  destruct (is_abstract E U) eqn:Ha; [done |]. simpl in Hrun.
  destruct (heap s !! this) as [rt|] eqn:Ht;
    [unfold bind, alloc in Hrun; by rewrite Ht in Hrun |].
  rewrite (construct_ok _ _ _ _ _ Ht) in Hrun. injection Hrun as <-.
  split; [keeps_inv; by apply rep_ok_value |].
  eexists. split; [reflexivity |].
  assert ((k =? 0) = false) as Hk
    by (apply Nat.eqb_neq; apply ID_range in HU; lia).
  simpl. by rewrite bool_decide_eq_true_2, Hk.
Qed.

Lemma Poly_rvalue_U_step this U u s s' :
  inv E Base Derived s ->
  Poly_rvalue_U E Base Derived this U u s = Ok tt s' ->
  good_step E Base Derived s s'.
Proof.
  intros Hinv Hrun. unfold Poly_rvalue_U in Hrun.
  destruct (H.matches_any U (types Base Derived) && H.movable E U);
    [| done].
  destruct (ID Base Derived U) as [k|] eqn:HU; [| done].
  destruct (is_abstract E U) eqn:Ha; [done |]. simpl in Hrun.
  destruct (heap s !! this) as [rt|] eqn:Ht;
    [unfold bind, alloc in Hrun; by rewrite Ht in Hrun |].
  rewrite (construct_ok _ _ _ _ _ Ht) in Hrun. injection Hrun as <-.
  split; [keeps_inv; by apply rep_ok_value |].
  eexists. split; [reflexivity |].
  assert ((k =? 0) = false) as Hk
    by (apply Nat.eqb_neq; apply ID_range in HU; lia).
  simpl. by rewrite bool_decide_eq_true_2, Hk.
Qed.

Lemma install_step this U w k s s' :
  NoDup (types Base Derived) -> inv E Base Derived s ->
  ID Base Derived U = Some k -> is_abstract E U = false ->
  bind (destroySelf Base Derived this)
    (fun _ => bind (set_id this k) (fun _ => placement_new this U w)) s
  = Ok tt s' ->
  good_step E Base Derived s s'.
Proof.
  intros Hnd Hinv HU Ha Hrun.
  destruct (heap s !! this) as [rt|] eqn:Ht.
  2:{ destruct (destroySelf_unallocated this s Ht) as [e He].
      unfold bind in Hrun. by rewrite He in Hrun. }
  pose proof (Hinv _ _ Ht) as Hokt.
  rewrite (install_ok _ _ _ _ _ _ Hnd Ht Hokt) in Hrun.
  injection Hrun as <-.
  split; [keeps_inv; by apply rep_ok_value |].
  eexists. split; [reflexivity |].
  assert ((k =? 0) = false) as Hk
    by (apply Nat.eqb_neq; apply ID_range in HU; lia).
  destruct rt as [[[Tt vt]|] kt]; simpl;
    by rewrite !bool_decide_eq_true_2, Hk.
Qed.

Lemma assign_const_U_step this U u s s' :
  NoDup (types Base Derived) -> inv E Base Derived s ->
  assign_const_U E Base Derived this U u s = Ok tt s' ->
  good_step E Base Derived s s'.
Proof.
  intros Hnd Hinv Hrun. unfold assign_const_U in Hrun.
  destruct (H.copyable E U && H.matches_any U (types Base Derived));
    [| done].
  destruct (ID Base Derived U) as [k|] eqn:HU; [| done].
  destruct (is_abstract E U) eqn:Ha; [done |]. simpl in Hrun.
  by eapply install_step.
Qed.

Lemma assign_rvalue_U_step this U u s s' :
  NoDup (types Base Derived) -> inv E Base Derived s ->
  assign_rvalue_U E Base Derived this U u s = Ok tt s' ->
  good_step E Base Derived s s'.
Proof.
  intros Hnd Hinv Hrun. unfold assign_rvalue_U in Hrun.
  destruct (H.movable E U && H.matches_any U (types Base Derived));
    [| done].
  destruct (ID Base Derived U) as [k|] eqn:HU; [| done].
  destruct (is_abstract E U) eqn:Ha; [done |]. simpl in Hrun.
  by eapply install_step.
Qed.

Lemma destroySelf_step this s s' :
  NoDup (types Base Derived) -> inv E Base Derived s ->
  destroySelf Base Derived this s = Ok tt s' ->
  good_step E Base Derived s s'.
Proof.
  intros Hnd Hinv Hrun.
  destruct (heap s !! this) as [rt|] eqn:Ht.
  2:{ destruct (destroySelf_unallocated this s Ht) as [e He].
      by rewrite He in Hrun. }
  pose proof (Hinv _ _ Ht) as Hokt.
  rewrite (destroySelf_ok _ _ _ Hnd Ht Hokt) in Hrun.
  injection Hrun as <-.
  split; [keeps_inv |].
  eexists. split; [reflexivity |].
  destruct rt as [[[Tt vt]|] kt]; simpl;
    by rewrite ?bool_decide_eq_true_2.
Qed.

Lemma Poly_dtor_step this s s' :
  NoDup (types Base Derived) -> inv E Base Derived s ->
  Poly_dtor Base Derived this s = Ok tt s' ->
  good_step E Base Derived s s'.
Proof.
  intros Hnd Hinv Hrun.
  destruct (heap s !! this) as [rt|] eqn:Ht.
  2:{ destruct (destroySelf_unallocated this s Ht) as [e He].
      unfold Poly_dtor, bind in Hrun. by rewrite He in Hrun. }
  pose proof (Hinv _ _ Ht) as Hokt.
  rewrite (Poly_dtor_ok _ _ _ Hnd Ht Hokt) in Hrun.
  injection Hrun as <-.
  split; [keeps_inv |].
  eexists. split; [reflexivity |].
  destruct rt as [[[Tt vt]|] kt]; simpl;
    by rewrite ?bool_decide_eq_true_2.
Qed.

Lemma assign_copy_step this p s s' :
  NoDup (types Base Derived) -> inv E Base Derived s ->
  assign_copy E Base Derived this p s = Ok tt s' ->
  good_step E Base Derived s s'.
Proof.
  intros Hnd Hinv Hrun.
  destruct (H.all_copyable E Derived) eqn:Hall;
    [| unfold assign_copy in Hrun; by rewrite Hall in Hrun].
  destruct (heap s !! this) as [rt|] eqn:Ht.
  2:{ destruct (destroySelf_unallocated this s Ht) as [e He].
      unfold assign_copy, bind in Hrun. by rewrite Hall, He in Hrun. }
  pose proof (Hinv _ _ Ht) as Hokt.
  destruct (decide (this = p)) as [<- | Hne].
  - destruct (instantiates Base Derived (types Base Derived)
                (copy_assign_cb E this)) eqn:Hinst.
    2:{ unfold assign_copy, bind in Hrun.
        rewrite Hall, (destroySelf_ok _ _ _ Hnd Ht Hokt) in Hrun.
        erewrite get_id_ok, set_id_ok in Hrun by lk.
        unfold visit in Hrun. by rewrite Hinst in Hrun. }
    rewrite (assign_copy_self _ _ _ Hnd Hall Hinst Ht Hokt) in Hrun.
    injection Hrun as <-.
    split; [keeps_inv |].
    eexists. split; [reflexivity |].
    destruct rt as [[[Tt vt]|] kt]; simpl;
      by rewrite ?bool_decide_eq_true_2.
  - destruct (heap s !! p) as [rp|] eqn:Hp.
    2:{ unfold assign_copy, bind in Hrun.
        rewrite Hall, (destroySelf_ok _ _ _ Hnd Ht Hokt) in Hrun.
        rewrite get_id_fail in Hrun by lk. done. }
    pose proof (Hinv _ _ Hp) as Hokp.
    destruct (instantiates Base Derived (types Base Derived)
                (copy_assign_cb E this)) eqn:Hinst.
    2:{ unfold assign_copy, bind in Hrun.
        rewrite Hall, (destroySelf_ok _ _ _ Hnd Ht Hokt) in Hrun.
        erewrite get_id_ok, set_id_ok in Hrun by lk.
        unfold visit in Hrun. by rewrite Hinst in Hrun. }
    rewrite (assign_copy_ok _ _ _ _ _ Hnd Hall Hinst Hne Ht Hokt Hp Hokp)
      in Hrun.
    injection Hrun as <-.
    split; [keeps_inv; by apply rep_ok_copied |].
    eexists. split; [reflexivity |].
    destruct rt as [[[Tt vt]|] kt], rp as [[[Tp vp]|] kp]; disc.
Qed.

Lemma assign_move_step this p s s' :
  NoDup (types Base Derived) -> inv E Base Derived s ->
  assign_move E Base Derived this p s = Ok tt s' ->
  good_step E Base Derived s s'.
Proof.
  intros Hnd Hinv Hrun.
  destruct (H.all_movable E Derived) eqn:Hall;
    [| unfold assign_move in Hrun; by rewrite Hall in Hrun].
  destruct (heap s !! this) as [rt|] eqn:Ht.
  2:{ destruct (destroySelf_unallocated this s Ht) as [e He].
      unfold assign_move, bind in Hrun. by rewrite Hall, He in Hrun. }
  pose proof (Hinv _ _ Ht) as Hokt.
  destruct (decide (this = p)) as [<- | Hne].
  - destruct (instantiates Base Derived (types Base Derived)
                (move_assign_cb E this)) eqn:Hinst.
    2:{ unfold assign_move, bind in Hrun.
        rewrite Hall, (destroySelf_ok _ _ _ Hnd Ht Hokt) in Hrun.
        erewrite get_id_ok, set_id_ok in Hrun by lk.
        unfold visit in Hrun. by rewrite Hinst in Hrun. }
    rewrite (assign_move_self _ _ _ Hnd Hall Hinst Ht Hokt) in Hrun.
    injection Hrun as <-.
    split; [keeps_inv |].
    eexists. split; [reflexivity |].
    destruct rt as [[[Tt vt]|] kt]; simpl;
      by rewrite ?bool_decide_eq_true_2.
  - destruct (heap s !! p) as [rp|] eqn:Hp.
    2:{ unfold assign_move, bind in Hrun.
        rewrite Hall, (destroySelf_ok _ _ _ Hnd Ht Hokt) in Hrun.
        rewrite get_id_fail in Hrun by lk. done. }
    pose proof (Hinv _ _ Hp) as Hokp.
    destruct (instantiates Base Derived (types Base Derived)
                (move_assign_cb E this)) eqn:Hinst.
    2:{ unfold assign_move, bind in Hrun.
        rewrite Hall, (destroySelf_ok _ _ _ Hnd Ht Hokt) in Hrun.
        erewrite get_id_ok, set_id_ok in Hrun by lk.
        unfold visit in Hrun. by rewrite Hinst in Hrun. }
    rewrite (assign_move_ok _ _ _ _ _ Hnd Hall Hinst Hne Ht Hokt Hp Hokp)
      in Hrun.
    injection Hrun as <-.
    split; [keeps_inv; by apply rep_ok_moved_to |].
    eexists. split; [reflexivity |].
    destruct rt as [[[Tt vt]|] kt], rp as [[[Tp vp]|] kp]; disc.
Qed.

Lemma visit_probe_step cst this s s' :
  NoDup (types Base Derived) -> inv E Base Derived s ->
  visit Base Derived cst probe this s = Ok tt s' ->
  good_step E Base Derived s s'.
Proof.
  intros Hnd Hinv Hrun.
  destruct (heap s !! this) as [r|] eqn:Hr.
  2:{ destruct (visit_unallocated cst probe this s Hr) as [e He].
      by rewrite He in Hrun. }
  pose proof (Hinv _ _ Hr) as Hok.
  pose proof (instantiates_probe Hnd) as HiP.
  destruct r as [[[T v]|] k]; unfold rep_ok in Hok; simpl in Hok.
  - destruct Hok as [HT _].
    rewrite (visit_hit cst probe this s _ T (fun P => emit (EvCall P))
               Hr HT eq_refl HiP) in Hrun.
    injection Hrun as <-. split; [done |].
    eexists. split; [reflexivity | done].
  - subst k. rewrite (visit_empty cst probe this s _ Hr eq_refl HiP) in Hrun.
    injection Hrun as <-. by apply good_step_refl.
Qed.

Lemma get_id_pure l s k s' : get_id l s = Ok k s' -> s' = s.
Proof.
  unfold get_id, bind, load, ret. destruct (heap s !! l); congruence.
Qed.

Lemma observers_pure NDEBUG cst T this s s' :
  (discard (operator_arrow Base NDEBUG cst this) s = Ok tt s' \/
   discard (holdsType Base Derived T this) s = Ok tt s' \/
   discard (holdsAny this) s = Ok tt s' \/
   discard (isEmpty this) s = Ok tt s') ->
  s' = s.
Proof.
  unfold discard, operator_arrow, holdsType, holdsAny, isEmpty, getPtr,
    POLY_ASSERT, bind, ret, throw.
  destruct (get_id this s) as [k s0|] eqn:Hid.
  - pose proof (get_id_pure _ _ _ _ Hid) as ->.
    intros [Hrun | [Hrun | [Hrun | Hrun]]];
      repeat first
        [ rewrite Hid in Hrun
        | progress cbv beta iota in Hrun
        | match type of Hrun with
          | context [if ?b then _ else _] => destruct b
          | context [match ID ?B ?D ?U with _ => _ end] =>
              destruct (ID B D U)
          end ];
      congruence.
  - intros [Hrun | [Hrun | [Hrun | Hrun]]];
      repeat first
        [ rewrite Hid in Hrun
        | progress cbv beta iota in Hrun
        | match type of Hrun with
          | context [if ?b then _ else _] => destruct b
          | context [match ID ?B ?D ?U with _ => _ end] =>
              destruct (ID B D U)
          end ];
      congruence.
Qed.

(** C4 (as the code has it): every operation of the public interface
    that returns leaves every container of the store with a tag of 0 and
    no live payload, or with the tag of the one live payload it stores;
    and among the steps it takes, every construction of a payload comes
    right after the write of its (nonzero) tag to the same container, and
    every destruction of a payload is followed at once by the reset of
    that container's tag to 0; no payload is constructed over a live
    one. *)
Theorem C4_operations_keep_invariant NDEBUG op s s' :
  NoDup (types Base Derived) ->
  inv E Base Derived s ->
  exec E Base Derived NDEBUG op s = Ok tt s' ->
  inv E Base Derived s' /\
  exists evs,
    trace s' = trace s ++ evs /\
    tag_then_construct None evs = true /\
    destroy_then_reset evs = true /\
    no_overwrite evs = true.
Proof.
  intros Hnd Hinv Hrun. change (good_step E Base Derived s s').
  destruct op; simpl in Hrun.
  - by eapply Poly_default_step.
  - by eapply Poly_copy_step.
  - by eapply Poly_move_step.
  - by eapply Poly_const_U_step.
  - by eapply Poly_rvalue_U_step.
  - by eapply Poly_dtor_step.
  - by eapply assign_copy_step.
  - by eapply assign_move_step.
  - by eapply assign_const_U_step.
  - by eapply assign_rvalue_U_step.
  - by eapply visit_probe_step.
  - assert (s' = s) as -> by (eapply (observers_pure NDEBUG cst Base); eauto).
    by apply good_step_refl.
  - by eapply destroySelf_step.
  - assert (s' = s) as -> by (eapply (observers_pure NDEBUG false T); eauto).
    by apply good_step_refl.
  - assert (s' = s) as -> by (eapply (observers_pure NDEBUG false Base); eauto).
    by apply good_step_refl.
  - assert (s' = s) as -> by (eapply (observers_pure NDEBUG false Base); eauto).
    by apply good_step_refl.
Qed.
(** ** Further properties of the container *)

Lemma holdsType_true l r s s' T :
  heap s !! l = Some r ->
  holdsType Base Derived T l s = Ok true s' ->
  ID Base Derived T = Some (id_ r).
Proof.
  intros Hl Hrun. unfold holdsType in Hrun.
  destruct (H.matches_any T (types Base Derived)); [| done].
  destruct (ID Base Derived T) as [k|]; [| done].
  unfold bind in Hrun. rewrite (get_id_ok _ _ _ Hl) in Hrun.
  injection Hrun as Hk _. apply Nat.eqb_eq in Hk. by subst.
Qed.

Lemma holdsType_other T U l r s :
  NoDup (types Base Derived) ->
  ID Base Derived U = Some (id_ r) ->
  T ∈ types Base Derived -> T <> U ->
  heap s !! l = Some r ->
  holdsType Base Derived T l s = Ok false s.
Proof.
  intros Hnd HU HT Hne Hl.
  destruct (ID_total T Hnd HT) as [kT HkT].
  rewrite (holdsType_ok _ _ _ _ _ HkT Hl). do 2 f_equal.
  apply Nat.eqb_neq. intros Heq. apply Hne.
  eapply ID_inj; [done |]. by rewrite HU, Heq.
Qed.

(** X1: [erase()] on a container, holding or empty, whose storage
    agrees with its tag: the payload, if any, is destroyed just once, the
    container ends up empty, no other container is touched; a second
    [erase()] calls no destructor and leaves the store as it is, and so
    does a first one on an empty container. *)
Theorem X1_erase_empties_once this r s :
  NoDup (types Base Derived) ->
  heap s !! this = Some r -> rep_ok E Base Derived r ->
  exists s1,
    erase Base Derived this s = Ok tt s1 /\
    isEmpty this s1 = Ok true s1 /\
    holdsAny this s1 = Ok false s1 /\
    heap s1 !! this = Some (mkPoly None 0) /\
    trace s1 = trace s ++ destroy_events this r ++ [EvSetTag this 0] /\
    (forall l, l <> this -> heap s1 !! l = heap s !! l) /\
    (data_ r = None -> heap s1 = heap s) /\
    exists s2,
      erase Base Derived this s1 = Ok tt s2 /\
      heap s2 = heap s1 /\
      trace s2 = trace s1 ++ [EvSetTag this 0].
Proof.
  intros Hnd Hl Hok. unfold erase.
  rewrite (destroySelf_ok _ _ _ Hnd Hl Hok). eexists. split; [reflexivity |].
  split; [erewrite isEmpty_ok by lk'; done |].
  split; [erewrite holdsAny_ok by lk'; done |].
  split; [lk' |]. split; [done |]. split; [intros l ?; lk' |].
  split.
  - intros Hd. simpl. apply insert_id. rewrite Hl.
    destruct r as [d k]. simpl in Hd. subst d.
    unfold rep_ok in Hok. simpl in Hok. by subst k.
  - erewrite destroySelf_ok; [| done | lk' | apply rep_ok_empty].
    eexists. split; [reflexivity |]. simpl.
    by rewrite insert_insert_eq.
Qed.

(** X2: a default-constructed container is empty: [isEmpty()] is true,
    [holdsAny()] false, [holdsType<T>()] false for every type of the pack,
    a visit calls nothing, and [operator->] trips its assertion. *)
Theorem X2_default_constructed_is_empty this s :
  NoDup (types Base Derived) ->
  heap s !! this = None ->
  exists s',
    Poly_default this s = Ok tt s' /\
    isEmpty this s' = Ok true s' /\
    holdsAny this s' = Ok false s' /\
    (forall T, T ∈ types Base Derived ->
       holdsType Base Derived T this s' = Ok false s') /\
    (forall cst F,
       instantiates Base Derived (types Base Derived) F = true ->
       visit Base Derived cst F this s' = Ok tt s') /\
    (forall cst, operator_arrow Base false cst this s' = Fail AssertFailed).
Proof.
  intros Hnd Ht. unfold Poly_default. rewrite (alloc_ok _ _ _ Ht).
  eexists. split; [reflexivity |].
  split; [erewrite isEmpty_ok by lk'; done |].
  split; [erewrite holdsAny_ok by lk'; done |].
  split; [| split].
  - intros T HT. destruct (ID_total T Hnd HT) as [k Hk].
    erewrite holdsType_ok; [| done | lk']. simpl.
    apply ID_range in Hk. destruct k; [lia | done].
  - intros cst F HF. eapply visit_empty; [lk' | done | done].
  - intros cst. unfold operator_arrow, bind.
    erewrite holdsAny_ok by lk'. done.
Qed.

(** X3: the three observers agree on any allocated container:
    [holdsAny()] is the negation of [isEmpty()]; [holdsType<T>()] true
    makes [holdsAny()] true; and [holdsType] is true for at most one
    type. *)
Theorem X3_observers_agree this r s :
  heap s !! this = Some r ->
  (exists b, isEmpty this s = Ok b s /\ holdsAny this s = Ok (negb b) s) /\
  (forall T, holdsType Base Derived T this s = Ok true s ->
             holdsAny this s = Ok true s) /\
  (forall T U, holdsType Base Derived T this s = Ok true s ->
               holdsType Base Derived U this s = Ok true s -> T = U).
Proof.
  intros Hl. split; [| split].
  - eexists. split; [by apply isEmpty_ok | by apply holdsAny_ok].
  - intros T HT%(holdsType_true _ _ _ _ _ Hl).
    rewrite (holdsAny_ok _ _ _ Hl). do 2 f_equal.
    apply ID_range in HT. apply negb_true_iff, Nat.eqb_neq. lia.
  - intros T U HT%(holdsType_true _ _ _ _ _ Hl)
      HU%(holdsType_true _ _ _ _ _ Hl).
    by eapply ID_inj.
Qed.

(** X4: a container constructed from a value of type [U] (by copy or by
    move of the value) holds [U] and no other type of the pack:
    [holdsAny()] and [holdsType<U>()] are true, [holdsType<T>()] is false
    for every other [T]. *)
Theorem X4_value_construction_holds_that_type this U u s :
  NoDup (types Base Derived) ->
  U ∈ types Base Derived ->
  is_abstract E U = false ->
  heap s !! this = None ->
  (H.copyable E U = true ->
   exists s',
     Poly_const_U E Base Derived this U u s = Ok tt s' /\
     holds E Base Derived s' this U (copy_ctor E U u) /\
     holdsAny this s' = Ok true s' /\
     holdsType Base Derived U this s' = Ok true s' /\
     (forall T, T ∈ types Base Derived -> T <> U ->
        holdsType Base Derived T this s' = Ok false s')) /\
  (H.movable E U = true ->
   exists s',
     Poly_rvalue_U E Base Derived this U u s = Ok tt s' /\
     holds E Base Derived s' this U (fst (move_ctor E U u)) /\
     holdsAny this s' = Ok true s' /\
     holdsType Base Derived U this s' = Ok true s' /\
     (forall T, T ∈ types Base Derived -> T <> U ->
        holdsType Base Derived T this s' = Ok false s')).
Proof.
  intros Hnd HU Ha Ht. destruct (ID_total U Hnd HU) as [k Hk].
  assert (Hk0 : (k =? 0) = false)
    by (apply Nat.eqb_neq; apply ID_range in Hk; lia).
  split; intros Hc; eexists.
  - split; [by apply Poly_const_U_ok |].
    split; [apply (holds_intro _ _ _ _ k); [done | done | lk'] |].
    split; [erewrite holdsAny_ok by lk'; simpl; by rewrite Hk0 |].
    split; [erewrite holdsType_ok; [| done | lk']; simpl;
            by rewrite Nat.eqb_refl |].
    intros T HT Hne. eapply (holdsType_other T U); [done | | done | done | lk']. done.
  - split; [by apply Poly_rvalue_U_ok |].
    split; [apply (holds_intro _ _ _ _ k); [done | done | lk'] |].
    split; [erewrite holdsAny_ok by lk'; simpl; by rewrite Hk0 |].
    split; [erewrite holdsType_ok; [| done | lk']; simpl;
            by rewrite Nat.eqb_refl |].
    intros T HT Hne. eapply (holdsType_other T U); [done | | done | done | lk']. done.
Qed.

(** X5: with an abstract base class, whatever the store, neither
    assignment between containers ever returns, nor does [std::swap],
    which goes through move assignment: their lambdas are instantiated at
    the base class, where the new-expression does not compile. *)
Theorem X5_abstract_base_excludes_assignment tmp this p s s' :
  is_abstract E Base = true ->
  assign_copy E Base Derived this p s <> Ok tt s' /\
  assign_move E Base Derived this p s <> Ok tt s' /\
  std_swap E Base Derived tmp this p s <> Ok tt s'.
Proof.
  intros Ha.
  destruct (assign_rejects_abstract_base this p s s' Ha) as [Hc Hm].
  split; [done |]. split; [done |].
  intros Hrun. unfold std_swap in Hrun. unfold bind at 1 in Hrun.
  destruct (Poly_move E Base Derived tmp this s) as [[] s1|]; [| done].
  unfold bind at 1 in Hrun.
  destruct (assign_move E Base Derived this p s1) as [[] s2|] eqn:Hmove;
    [| done].
  by apply (assign_rejects_abstract_base this p s1 s2 Ha).
Qed.

(** X6: what the value constructors and [holdsType] reject at compile
    time.  [Poly(const U&)] does not compile exactly when [U] is not one of
    [Base, Derived...], or is not copyable, or is abstract; [Poly(U&&)]
    likewise with movable; [holdsType<U>()] exactly when [U] is not in
    the pack. *)
Theorem X6_compile_time_rejections this U u s :
  NoDup (types Base Derived) ->
  (Poly_const_U E Base Derived this U u s = Fail IllFormed <->
   U ∉ types Base Derived \/ H.copyable E U = false \/
   is_abstract E U = true) /\
  (Poly_rvalue_U E Base Derived this U u s = Fail IllFormed <->
   U ∉ types Base Derived \/ H.movable E U = false \/
   is_abstract E U = true) /\
  (holdsType Base Derived U this s = Fail IllFormed <->
   U ∉ types Base Derived).
Proof.
  intros Hnd.
  assert (Hm : forall T, T ∉ types Base Derived ->
                 H.matches_any T (types Base Derived) = false).
  { intros T HT. destruct (H.matches_any T _) eqn:Hmt; [| done].
    by apply matches_any_elem in Hmt. }
  split; [| split]; split.
  - intros Hrun.
    destruct (decide (U ∈ types Base Derived)) as [HU |]; [| by left].
    destruct (H.copyable E U) eqn:Hc; [| by right; left].
    destruct (is_abstract E U) eqn:Ha; [by right; right |]. exfalso.
    destruct (ID_total U Hnd HU) as [k Hk].
    destruct (heap s !! this) as [rt|] eqn:Ht.
    + unfold Poly_const_U, bind, alloc in Hrun.
      rewrite (proj2 (matches_any_elem U _) HU), Hc, Hk, Ha in Hrun.
      simpl in Hrun. by rewrite Ht in Hrun.
    + by rewrite (Poly_const_U_ok _ _ _ _ _ Hk Hc Ha Ht) in Hrun.
  - unfold Poly_const_U. intros [HU | [Hc | Ha]].
    + by rewrite (Hm _ HU).
    + rewrite Hc, andb_false_r. done.
    + rewrite Ha. simpl.
      by destruct (_ && _), (ID Base Derived U).
  - intros Hrun.
    destruct (decide (U ∈ types Base Derived)) as [HU |]; [| by left].
    destruct (H.movable E U) eqn:Hc; [| by right; left].
    destruct (is_abstract E U) eqn:Ha; [by right; right |]. exfalso.
    destruct (ID_total U Hnd HU) as [k Hk].
    destruct (heap s !! this) as [rt|] eqn:Ht.
    + unfold Poly_rvalue_U, bind, alloc in Hrun.
      rewrite (proj2 (matches_any_elem U _) HU), Hc, Hk, Ha in Hrun.
      simpl in Hrun. by rewrite Ht in Hrun.
    + by rewrite (Poly_rvalue_U_ok _ _ _ _ _ Hk Hc Ha Ht) in Hrun.
  - unfold Poly_rvalue_U. intros [HU | [Hc | Ha]].
    + by rewrite (Hm _ HU).
    + rewrite Hc, andb_false_r. done.
    + rewrite Ha. simpl.
      by destruct (_ && _), (ID Base Derived U).
  - intros Hrun.
    destruct (decide (U ∈ types Base Derived)) as [HU |]; [exfalso | done].
    destruct (ID_total U Hnd HU) as [k Hk].
    destruct (heap s !! this) as [rt|] eqn:Ht.
    + by rewrite (holdsType_ok _ _ _ _ _ Hk Ht) in Hrun.
    + unfold holdsType, bind in Hrun.
      rewrite (proj2 (matches_any_elem U _) HU), Hk in Hrun.
      by rewrite (get_id_fail _ _ Ht) in Hrun.
  - intros HU. unfold holdsType. by rewrite (Hm _ HU).
Qed.

(** X7: [operator->] in a build without assertions never fails on an
    allocated container: it returns the null pointer when the container is
    empty, the pointer to its storage otherwise, and leaves the store as it
    is. *)
Theorem X7_arrow_without_assertions cst this r s :
  heap s !! this = Some r ->
  operator_arrow Base true cst this s
  = Ok (mkPtr Base (if id_ r =? 0 then None else Some this) cst) s.
Proof.
  intros Hl. unfold operator_arrow, getPtr, bind, POLY_ASSERT.
  rewrite (holdsAny_ok _ _ _ Hl). simpl. rewrite (get_id_ok _ _ _ Hl).
  by destruct (id_ r =? 0).
Qed.

(** X9: a container constructed from a value and then destroyed: the
    payload is constructed once and destroyed once, the store is back to
    what it was, and the address is no longer that of a container. *)
Theorem X9_construct_then_destroy this U u s :
  NoDup (types Base Derived) ->
  U ∈ types Base Derived ->
  H.copyable E U = true -> is_abstract E U = false ->
  heap s !! this = None ->
  exists s1 s2 k,
    ID Base Derived U = Some k /\
    Poly_const_U E Base Derived this U u s = Ok tt s1 /\
    Poly_dtor Base Derived this s1 = Ok tt s2 /\
    heap s2 = heap s /\
    trace s2 = trace s ++
      [EvSetTag this k; EvConstruct this U (copy_ctor E U u);
       EvDestroy this U (copy_ctor E U u); EvSetTag this 0] /\
    isEmpty this s2 = Fail UB.
Proof.
  intros Hnd HU Hc Ha Ht. destruct (ID_total U Hnd HU) as [k Hk].
  eexists _, _, k. split; [done |].
  split; [by apply Poly_const_U_ok |].
  split; [eapply Poly_dtor_ok; [done | lk' | by apply rep_ok_value] |].
  simpl. rewrite delete_insert_eq, delete_id by done.
  split; [done |]. split; [by rewrite <- app_assoc |].
  unfold isEmpty, bind. by rewrite get_id_fail.
Qed.

(** X10: copying an empty container.  The copy constructor makes an empty
    container; copy assignment empties the destination, destroying the
    payload it held; nothing is constructed and the source stays empty. *)
Theorem X10_copy_of_empty this p s :
  NoDup (types Base Derived) ->
  H.all_copyable E Derived = true ->
  this <> p ->
  empty_at s p ->
  (ctor_pack_ok E Base Derived (is_copy_constructible E) = true ->
   heap s !! this = None ->
   exists s',
     Poly_copy E Base Derived this p s = Ok tt s' /\
     empty_at s' this /\ empty_at s' p /\
     trace s' = trace s ++ [EvSetTag this 0]) /\
  (assign_pack_ok E Base Derived (is_copy_constructible E) = true ->
   forall rt, heap s !! this = Some rt -> rep_ok E Base Derived rt ->
   exists s',
     assign_copy E Base Derived this p s = Ok tt s' /\
     empty_at s' this /\ empty_at s' p /\
     trace s' = trace s ++ destroy_events this rt ++
                [EvSetTag this 0; EvSetTag this 0]).
Proof.
  intros Hnd Hall Hne Hp. unfold empty_at in *. split.
  - intros Hpack Ht. eexists.
    split; [by eapply Poly_copy_ok;
              eauto using instantiates_copy_ctor_cb, rep_ok_empty |].
    simpl. split; [lk' |]. split; [lk' | done].
  - intros Hpack rt Ht Hokt. eexists.
    split; [by eapply assign_copy_ok;
              eauto using instantiates_copy_assign_cb, rep_ok_empty |].
    simpl. split; [lk' |]. split; [lk' | done].
Qed.
End Theory.

(** * The properties on the two instantiations *)

Lemma MyPoly_distinct : NoDup (types MyBase [Meower; Woofer]).
Proof. apply (bool_decide_unpack _). vm_compute. exact I. Defined.

Lemma ShapePoly_distinct : NoDup (types Shape [Circle; Square]).
Proof. apply (bool_decide_unpack _). vm_compute. exact I. Defined.

Lemma two_shapes_circle :
  holds ShapeEnv Shape [Circle; Square] two_shapes 1 Circle 5.
Proof. exists 2. repeat split; reflexivity. Defined.

Lemma two_shapes_square :
  holds ShapeEnv Shape [Circle; Square] two_shapes 2 Square 9.
Proof. exists 3. repeat split; reflexivity. Defined.

Lemma one_meower_holds :
  holds MyEnv MyBase [Meower; Woofer] one_meower 1 Meower 7.
Proof. exists 2. repeat split; reflexivity. Defined.

(** Against C3 as worded: in [MyPoly] the first derived class has tag 2,
    not 1, and the second has tag 3, above the number of derived classes. *)
Lemma C3_counterexample :
  ID MyBase [Meower; Woofer] Meower = Some 2 /\
  ID MyBase [Meower; Woofer] Woofer = Some 3 /\
  ~ (forall i T, [Meower; Woofer] !! i = Some T ->
                 ID MyBase [Meower; Woofer] T = Some (i + 1)) /\
  ~ (forall T k, ID MyBase [Meower; Woofer] T = Some k ->
                 k <= length [Meower; Woofer]).
Proof.
  split; [reflexivity |]. split; [reflexivity |]. split.
  - intros Hall. specialize (Hall 0 Meower eq_refl). discriminate Hall.
  - intros Hall. specialize (Hall Woofer 3 eq_refl). simpl in Hall. lia.
Qed.

Lemma C3_witness :
  NoDup (types MyBase [Meower; Woofer]) /\
  ID MyBase [Meower; Woofer] MyBase = Some 1 /\
  ID MyBase [Meower; Woofer] Woofer = Some 3 /\
  H.GetTy (BaseType MyBase [Meower; Woofer]) 2 = Some Woofer.
Proof.
  split; [exact MyPoly_distinct |].
  destruct (C3_tags_count_from_base MyBase [Meower; Woofer] MyPoly_distinct)
    as (HB & HD & _ & _).
  split; [exact HB |]. split; [exact (HD 1 Woofer eq_refl) | reflexivity].
Defined.

Lemma C2_witness :
  NoDup (types MyBase [Meower; Woofer]) /\
  heap one_meower !! 1 = Some (mkPoly (Some (Meower, 7)) 2) /\
  visit MyBase [Meower; Woofer] true probe 1 one_meower
  = emit (EvCall (mkPtr Meower (Some 1) true)) one_meower.
Proof.
  split; [exact MyPoly_distinct |]. split; [reflexivity |].
  refine (proj1 (proj2 (C2_visit_calls_exactly_once MyBase [Meower; Woofer]
            true probe 1 one_meower _ MyPoly_distinct _ eq_refl)
            Meower _ eq_refl eq_refl)).
  intros T _. by eexists.
Defined.

Lemma C7_witness :
  heap one_empty !! 1 = Some (mkPoly None 0) /\
  operator_arrow (V := nat) MyBase false false 1 one_empty
  = Fail AssertFailed.
Proof.
  split; [reflexivity |].
  exact (proj1 (C7_arrow_requires_a_value MyBase false 1 one_empty _ eq_refl)
           eq_refl).
Defined.

(** In the driver's [MyPoly], whose base class is abstract, move
    construction works and move assignment does not compile. *)
Example MyPoly_move_construct :
  exists s',
    Poly_move MyEnv MyBase [Meower; Woofer] 3 1 meower_and_woofer = Ok tt s' /\
    heap s' !! 3 = Some (mkPoly (Some (Meower, 7)) 2) /\
    heap s' !! 1 = Some (mkPoly None 0).
Proof. eexists. split; [vm_compute; reflexivity |]. by split. Qed.

Example MyPoly_move_assign :
  assign_move MyEnv MyBase [Meower; Woofer] 1 2 meower_and_woofer
  = Fail IllFormed.
Proof. vm_compute. reflexivity. Qed.

Lemma two_shapes_square_ok :
  rep_ok ShapeEnv Shape [Circle; Square] (mkPoly (Some (Square, 9)) 3).
Proof. split; reflexivity. Defined.

Lemma one_meower_inv : inv MyEnv MyBase [Meower; Woofer] one_meower.
Proof.
  intros l r Hl. unfold one_meower in Hl. simpl in Hl.
  apply lookup_singleton_Some in Hl as [<- <-]. split; reflexivity.
Defined.

Lemma C1_witness :
  NoDup (types Shape [Circle; Square]) /\
  H.all_movable ShapeEnv [Circle; Square] = true /\
  2 <> 1 /\
  holds ShapeEnv Shape [Circle; Square] two_shapes 1 Circle 5 /\
  exists s',
    assign_move ShapeEnv Shape [Circle; Square] 2 1 two_shapes = Ok tt s' /\
    holdsType Shape [Circle; Square] Circle 2 s' = Ok true s' /\
    isEmpty 1 s' = Ok true s'.
Proof.
  split; [exact ShapePoly_distinct |]. split; [reflexivity |].
  split; [discriminate |]. split; [exact two_shapes_circle |].
  destruct (C1_move_leaves_source_empty ShapeEnv Shape [Circle; Square]
              2 1 two_shapes ShapePoly_distinct eq_refl
              ltac:(discriminate)) as [Hheld _].
  destruct (Hheld Circle 5 two_shapes_circle) as [_ Hassign].
  destruct (Hassign eq_refl _ eq_refl two_shapes_square_ok)
    as (s' & k & _ & Hrun & Hty & Hemp & _).
  exists s'. by repeat split.
Defined.

(** Against C4 as worded: [x = Woofer()] on an [x] that holds a [Meower],
    as in the driver: the tag is written before the [Woofer] is
    constructed, not after. *)
Lemma C4_counterexample :
  exists s',
    exec MyEnv MyBase [Meower; Woofer] false (OpAssignRvalueU 1 Woofer 4)
      one_meower = Ok tt s' /\
    trace s' = [EvDestroy 1 Meower 7; EvSetTag 1 0; EvSetTag 1 3;
                EvConstruct 1 Woofer 4] /\
    construct_then_tag None (trace s') = false /\
    tag_then_construct None (trace s') = true.
Proof. eexists. split; [vm_compute; reflexivity |]. by repeat split. Qed.

Lemma C4_witness :
  NoDup (types MyBase [Meower; Woofer]) /\
  inv MyEnv MyBase [Meower; Woofer] one_meower /\
  exec MyEnv MyBase [Meower; Woofer] false (OpAssignRvalueU 1 Woofer 4)
    one_meower
  = Ok tt (mkState {[ 1 := mkPoly (Some (Woofer, 4)) 3 ]}
             [EvDestroy 1 Meower 7; EvSetTag 1 0; EvSetTag 1 3;
              EvConstruct 1 Woofer 4]) /\
  inv MyEnv MyBase [Meower; Woofer]
    (mkState {[ 1 := mkPoly (Some (Woofer, 4)) 3 ]}
       [EvDestroy 1 Meower 7; EvSetTag 1 0; EvSetTag 1 3;
        EvConstruct 1 Woofer 4]).
Proof.
  split; [exact MyPoly_distinct |]. split; [exact one_meower_inv |].
  assert (Hrun :
    exec MyEnv MyBase [Meower; Woofer] false (OpAssignRvalueU 1 Woofer 4)
      one_meower
    = Ok tt (mkState {[ 1 := mkPoly (Some (Woofer, 4)) 3 ]}
               [EvDestroy 1 Meower 7; EvSetTag 1 0; EvSetTag 1 3;
                EvConstruct 1 Woofer 4]))
    by (vm_compute; reflexivity).
  split; [exact Hrun |].
  exact (proj1 (C4_operations_keep_invariant MyEnv MyBase [Meower; Woofer]
                  false _ _ _ MyPoly_distinct one_meower_inv Hrun)).
Defined.

(** Against C5 as worded: [x = x] on an [x] that holds a [Circle]: [x]
    ends up empty, so the result does not hold a [Circle] and the source
    has changed. *)
Lemma C5_counterexample :
  holds ShapeEnv Shape [Circle; Square] one_circle 1 Circle 5 /\
  exists s',
    assign_copy ShapeEnv Shape [Circle; Square] 1 1 one_circle = Ok tt s' /\
    holdsType Shape [Circle; Square] Circle 1 s' = Ok false s' /\
    isEmpty 1 s' = Ok true s' /\
    heap s' !! 1 = Some (mkPoly None 0) /\
    ~ holds ShapeEnv Shape [Circle; Square] s' 1 Circle 5.
Proof.
  split; [exists 2; repeat split; reflexivity |].
  eexists. split; [vm_compute; reflexivity |].
  split; [reflexivity |]. split; [reflexivity |]. split; [reflexivity |].
  intros (k & _ & _ & Hl). vm_compute in Hl. discriminate Hl.
Qed.

Lemma C5_witness :
  NoDup (types Shape [Circle; Square]) /\
  H.all_copyable ShapeEnv [Circle; Square] = true /\
  2 <> 1 /\
  holds ShapeEnv Shape [Circle; Square] two_shapes 1 Circle 5 /\
  exists s',
    assign_copy ShapeEnv Shape [Circle; Square] 2 1 two_shapes = Ok tt s' /\
    holds ShapeEnv Shape [Circle; Square] s' 2 Circle 5 /\
    holds ShapeEnv Shape [Circle; Square] s' 1 Circle 5.
Proof.
  split; [exact ShapePoly_distinct |]. split; [reflexivity |].
  split; [discriminate |]. split; [exact two_shapes_circle |].
  destruct (C5_copy_between_distinct_containers ShapeEnv Shape
              [Circle; Square] 2 1 two_shapes Circle 5 ShapePoly_distinct
              eq_refl ltac:(discriminate) two_shapes_circle)
    as [_ Hassign].
  destruct (Hassign eq_refl _ eq_refl two_shapes_square_ok)
    as (s' & Hrun & Hdst & _ & _ & Hsrc & _).
  exists s'. by repeat split.
Defined.

Lemma C6_witness :
  NoDup (types MyBase [Meower; Woofer]) /\
  holds MyEnv MyBase [Meower; Woofer] one_meower 1 Meower 7 /\
  Woofer ∈ types MyBase [Meower; Woofer] /\
  is_abstract MyEnv Woofer = false /\
  exists s',
    assign_rvalue_U MyEnv MyBase [Meower; Woofer] 1 Woofer 4 one_meower
    = Ok tt s' /\
    trace s' = [EvDestroy 1 Meower 7; EvSetTag 1 0; EvSetTag 1 3;
                EvConstruct 1 Woofer 4] /\
    holdsType MyBase [Meower; Woofer] Woofer 1 s' = Ok true s' /\
    holdsType MyBase [Meower; Woofer] Meower 1 s' = Ok false s'.
Proof.
  assert (Hin : Woofer ∈ types MyBase [Meower; Woofer])
    by (unfold types; rewrite !elem_of_cons; by right; right; left).
  split; [exact MyPoly_distinct |]. split; [exact one_meower_holds |].
  split; [exact Hin |]. split; [reflexivity |].
  destruct (C6_reassign_destroys_before_constructing MyEnv MyBase
              [Meower; Woofer] 1 Meower 7 Woofer 4 one_meower
              MyPoly_distinct one_meower_holds Hin eq_refl)
    as (kB & HkB & _ & Hmove).
  injection HkB as <-.
  destruct (Hmove eq_refl) as (s' & Hrun & Htr & _ & HB & HA).
  exists s'. repeat split; [done | done | done |].
  apply HA. discriminate.
Defined.

Lemma C8_witness :
  NoDup (types Shape [Circle; Square]) /\
  H.all_movable ShapeEnv [Circle; Square] = true /\
  assign_pack_ok ShapeEnv Shape [Circle; Square]
    (is_move_constructible ShapeEnv) = true /\
  heap two_shapes !! 3 = None /\
  holds ShapeEnv Shape [Circle; Square] two_shapes 1 Circle 5 /\
  holds ShapeEnv Shape [Circle; Square] two_shapes 2 Square 9 /\
  exists s',
    std_swap ShapeEnv Shape [Circle; Square] 3 1 2 two_shapes = Ok tt s' /\
    holds ShapeEnv Shape [Circle; Square] s' 1 Square 9 /\
    holds ShapeEnv Shape [Circle; Square] s' 2 Circle 5.
Proof.
  split; [exact ShapePoly_distinct |]. split; [reflexivity |].
  split; [reflexivity |]. split; [reflexivity |].
  split; [exact two_shapes_circle |]. split; [exact two_shapes_square |].
  destruct (C8_swap_exchanges ShapeEnv Shape [Circle; Square] 3 1 2
              two_shapes Circle 5 Square 9 ShapePoly_distinct eq_refl eq_refl
              eq_refl two_shapes_circle two_shapes_square)
    as [Hswap _].
  destruct (Hswap ltac:(discriminate)) as (s' & Hrun & _ & _ & _ & Hfaith).
  destruct (Hfaith (fun _ _ => eq_refl)) as (Ha & Hb & _).
  exists s'. by repeat split.
Defined.

Lemma C9_witness :
  NoDup (types Shape [Circle; Square]) /\
  holds ShapeEnv Shape [Circle; Square] one_circle 1 Circle 5 /\
  (exists s',
     assign_copy ShapeEnv Shape [Circle; Square] 1 1 one_circle = Ok tt s' /\
     isEmpty 1 s' = Ok true s') /\
  (exists s',
     assign_move ShapeEnv Shape [Circle; Square] 1 1 one_circle = Ok tt s' /\
     isEmpty 1 s' = Ok true s').
Proof.
  assert (Hholds : holds ShapeEnv Shape [Circle; Square] one_circle 1 Circle 5)
    by (exists 2; repeat split; reflexivity).
  split; [exact ShapePoly_distinct |]. split; [exact Hholds |].
  destruct (C9_self_assignment_empties ShapeEnv Shape [Circle; Square] 1
              one_circle Circle 5 ShapePoly_distinct Hholds)
    as [Hcopy Hmove].
  destruct (Hcopy eq_refl eq_refl) as (s1 & Hrun1 & Hemp1 & _).
  destruct (Hmove eq_refl eq_refl) as (s2 & Hrun2 & Hemp2 & _).
  split; [by exists s1 | by exists s2].
Defined.

Lemma C10_witness :
  NoDup (types Shape [Circle; Square]) /\
  exists s',
    Poly_const_U ShapeEnv Shape [Circle; Square] 1 Shape 8 (mkState ∅ [])
    = Ok tt s' /\
    heap s' !! 1 = Some (mkPoly (Some (Shape, 8)) 1) /\
    holdsType Shape [Circle; Square] Shape 1 s' = Ok true s'.
Proof.
  split; [exact ShapePoly_distinct |].
  destruct (C10_concrete_base_is_a_held_type ShapeEnv Shape [Circle; Square]
              1 8 (mkState ∅ []) ShapePoly_distinct)
    as (_ & _ & Hconcrete & _).
  destruct (Hconcrete eq_refl) as (Hctor & _).
  exact (Hctor eq_refl eq_refl).
Defined.

(** * Further properties of the registry *)

Section RegistryMore.
Context {Ty : Type} `{EqDecision Ty}.
Implicit Types (TT : list Ty) (U T : Ty) (i j k : nat).

Lemma IGetTy_above TT j J :
  j + length TT < J ->
  omap (fun n => H.IGetTy n J) (H.IPoly (seq j (length TT)) TT) = [].
Proof.
  revert j. induction TT as [|T0 TT IH]; intros j HJ; [done |].
  simpl in *. unfold H.IGetTy at 1. simpl.
  destruct (decide (J = j + 1)); [lia |].
  apply IH. lia.
Qed.

(** X8: the tag-to-type direction of the registry, [GetTy<I>()], is the
    indexing of the pack from 0: it gives the type at position [I], and
    does not compile for an [I] beyond the pack. *)
Theorem X8_GetTy_indexes_the_pack TT I :
  H.GetTy (H.IPolyBase TT) I = TT !! I.
Proof.
  destruct (TT !! I) as [T|] eqn:HI; [by apply GetTy_at |].
  apply lookup_ge_None in HI. unfold H.GetTy, H.IPolyBase.
  rewrite IGetTy_above; [done | lia].
Qed.

Lemma IGetID_at_unique TT j i U :
  TT !! i = Some U ->
  (forall i', TT !! i' = Some U -> i' = i) ->
  omap (fun n => H.IGetID n U) (H.IPoly (seq j (length TT)) TT)
  = [j + i + 1].
Proof.
  revert j i. induction TT as [|T0 TT IH]; intros j i Hi Huniq; [done |].
  simpl. unfold H.IGetID at 1. simpl.
  destruct i as [|i]; simpl in Hi.
  - injection Hi as ->.
    destruct (decide (U = U)); [| done].
    rewrite IGetID_absent; [f_equal; lia |].
    intros (i' & Hi')%list_elem_of_lookup.
    by specialize (Huniq (S i') Hi').
  - destruct (decide (U = T0)) as [-> |].
    + by specialize (Huniq 0 eq_refl).
    + etrans; [apply (IH (S j) i Hi) | f_equal; lia].
      intros i' Hi'. specialize (Huniq (S i') Hi'). lia.
Qed.

Lemma IGetID_member TT i U :
  TT !! i = Some U ->
  (i + 1) ∈ omap (fun n => H.IGetID n U) (H.IPolyBase TT).
Proof.
  intros Hi. apply list_elem_of_omap. exists (H.mkPolyNode U i). split.
  - apply list_elem_of_lookup. exists i. unfold H.IPolyBase, H.IPoly.
    apply lookup_zip_with_Some. exists U, i. split; [done |].
    split; [done |]. apply lookup_seq. split; [done |].
    by apply lookup_lt_Some in Hi.
  - unfold H.IGetID. simpl. by destruct (decide (U = U)).
Qed.

(** X11: the type-to-tag direction, [GetID<U>()], compiles exactly when
    [U] stands at one position of the pack and no other, and is then that
    position counted from 1; for a type outside the pack, or repeated in
    it, there is no tag. *)
Theorem X11_GetID_needs_one_position TT U k :
  H.GetID (H.IPolyBase TT) U = Some k <->
  exists i, k = i + 1 /\ TT !! i = Some U /\
            forall i', TT !! i' = Some U -> i' = i.
Proof.
  split.
  - intros Hk. destruct (GetID_lookup _ _ _ Hk) as (i & -> & Hi).
    exists i. split; [done |]. split; [done |].
    intros i' Hi'. apply IGetID_member in Hi'.
    unfold H.GetID in Hk. apply resolve_Some in Hk. rewrite Hk in Hi'.
    apply list_elem_of_singleton in Hi'. lia.
  - intros (i & -> & Hi & Huniq). unfold H.GetID, H.IPolyBase.
    by rewrite (IGetID_at_unique TT 0 i U Hi Huniq).
Qed.
End RegistryMore.

(** * What an operation leaves alone *)

Section Frame.
Context {Ty : Type} `{EqDecision Ty} {V : Type}.
Variable E : TypeEnv Ty V.
Variable Base : Ty.
Variable Derived : list Ty.
Implicit Types (s : State (Ty := Ty) (V := V)) (L : list nat).
Implicit Types (this p l : nat) (F : Callback (Ty := Ty) (V := V)) (T : Ty).

Lemma co_ret {A} L (a : A) : changes_only (Ty := Ty) (V := V) L (ret a).
Proof. intros s a' s' [= _ <-]. done. Qed.

Lemma co_throw {A} L e : changes_only (Ty := Ty) (V := V) (A := A) L (throw e).
Proof. intros s a' s' Hrun. discriminate Hrun. Qed.

Lemma co_bind {A B} L (m : M (Ty := Ty) (V := V) A) (k : A -> M B) :
  changes_only L m -> (forall a, changes_only L (k a)) ->
  changes_only L (bind m k).
Proof.
  intros Hm Hk s b s' Hrun l Hl. unfold bind in Hrun.
  destruct (m s) as [a s1|] eqn:Hms; [| done].
  rewrite (Hk a _ _ _ Hrun l Hl). by apply (Hm _ _ _ Hms).
Qed.

Lemma co_load L l : changes_only (Ty := Ty) (V := V) L (load l).
Proof.
  intros s r s' Hrun. unfold load in Hrun.
  destruct (heap s !! l); [| done]. by injection Hrun as _ <-.
Qed.

Lemma co_emit L e : changes_only (Ty := Ty) (V := V) L (emit e).
Proof. intros s [] s' [= <-]. done. Qed.

Lemma co_store L l r : l ∈ L -> changes_only (Ty := Ty) (V := V) L (store l r).
Proof.
  intros Hin s [] s' [= <-] l' Hl'. simpl.
  apply lookup_insert_ne. by intros ->.
Qed.

Lemma co_alloc L l k : l ∈ L -> changes_only (Ty := Ty) (V := V) L (alloc l k).
Proof.
  intros Hin s [] s' Hrun l' Hl'. unfold alloc in Hrun.
  destruct (heap s !! l); [done |]. injection Hrun as <-. simpl.
  apply lookup_insert_ne. by intros ->.
Qed.

Lemma co_dealloc L l : l ∈ L -> changes_only (Ty := Ty) (V := V) L (dealloc l).
Proof.
  intros Hin s [] s' [= <-] l' Hl'. simpl.
  apply lookup_delete_ne. by intros ->.
Qed.

Ltac co :=
  repeat first
    [ apply co_ret | apply co_throw | apply co_load | apply co_emit
    | apply co_store; assumption | apply co_alloc; assumption
    | apply co_dealloc; assumption
    | apply co_bind; [| intros ?]
    | match goal with
      | |- changes_only _ (if ?b then _ else _) => destruct b
      | |- changes_only _ (match ?x with _ => _ end) => destruct x
      end ].

Lemma co_get_id L l : changes_only (Ty := Ty) (V := V) L (get_id l).
Proof. unfold get_id. co. Qed.

Lemma co_set_id L l k :
  l ∈ L -> changes_only (Ty := Ty) (V := V) L (set_id l k).
Proof. intros. unfold set_id. co. Qed.

Lemma co_placement_new L l T (v : V) :
  l ∈ L -> changes_only L (placement_new l T v).
Proof. intros. unfold placement_new. co. Qed.

Lemma co_deref L (P : Ptr (Ty := Ty)) : changes_only (V := V) L (deref P).
Proof. unfold deref. co. Qed.

Lemma co_assign_through L this (P : Ptr (Ty := Ty)) (o : option V) :
  this ∈ L -> points_into this P -> changes_only L (assign_through P o).
Proof.
  intros Hin [HP | HP]; unfold assign_through; rewrite HP; co.
Qed.

Lemma co_destroy_at L this (P : Ptr (Ty := Ty)) :
  this ∈ L -> points_into this P -> changes_only (V := V) L (destroy_at P).
Proof.
  intros Hin HP. unfold destroy_at.
  apply co_bind; [apply co_deref | intros v].
  apply co_bind; [by eapply co_assign_through | intros _]. co.
Qed.

Lemma co_getPtr L cst this s P s' :
  getPtr (V := V) Base cst this s = Ok P s' ->
  s' = s /\ points_into this P.
Proof.
  unfold getPtr, bind. destruct (get_id this s) as [k s1|] eqn:Hk; [| done].
  apply get_id_pure in Hk as ->.
  destruct (k =? 0); intros [= <- <-].
  - split; [done | by left].
  - split; [done | by right].
Qed.

Lemma co_visit_ L cst TT F this :
  cb_changes_only L this F ->
  changes_only L (visit_ Base Derived cst TT F this).
Proof.
  intros HF. induction TT as [|T Next IH]; simpl; [co |].
  destruct (ID Base Derived T) as [k|]; [| co].
  destruct (F T) as [f|] eqn:Hf; [| co].
  apply co_bind; [apply co_get_id | intros tag].
  destruct (negb (k =? tag)); [done |].
  intros s a s' Hrun l Hl. unfold bind in Hrun.
  destruct (getPtr Base cst this s) as [P s1|] eqn:HP; [| done].
  apply co_getPtr in HP as [-> HP]; [| exact []].
  by apply (HF T f (launder_cast T P) Hf HP _ _ _ Hrun).
Qed.

Lemma co_visit L cst F this :
  cb_changes_only L this F ->
  changes_only L (visit Base Derived cst F this).
Proof.
  intros HF. unfold visit, isEmpty.
  destruct (instantiates _ _ _ _); [| co].
  apply co_bind; [apply co_bind; [apply co_get_id | intros; co] |].
  intros e. destruct e; [co | by apply co_visit_].
Qed.

Lemma co_destroySelf L this :
  this ∈ L -> changes_only L (destroySelf (V := V) Base Derived this).
Proof.
  intros Hin. unfold destroySelf.
  apply co_bind; [| intros; by apply co_set_id].
  apply co_visit. intros T f P [= <-] HP. by eapply co_destroy_at.
Qed.

Lemma co_copy_cb L this p F :
  this ∈ L ->
  F = copy_ctor_cb E this \/ F = copy_assign_cb E this ->
  cb_changes_only L p F.
Proof.
  intros Hin HF T f P Hf HP.
  destruct HF as [-> | ->]; unfold copy_ctor_cb, copy_assign_cb in Hf;
    repeat match type of Hf with
           | context [if ?b then _ else _] => destruct b
           end; simpl in Hf; try discriminate Hf; injection Hf as <-;
    try apply co_ret;
    (apply co_bind; [apply co_deref | intros; by apply co_placement_new]).
Qed.

Lemma co_move_construct L this p T (P : Ptr (Ty := Ty)) :
  this ∈ L -> p ∈ L -> points_into p P ->
  changes_only L (move_construct E this T P).
Proof.
  intros Ht Hp HP. unfold move_construct.
  apply co_bind; [apply co_deref | intros v].
  apply co_bind; [by eapply co_assign_through | intros _].
  by apply co_placement_new.
Qed.

Lemma co_move_cb L this p F :
  this ∈ L -> p ∈ L ->
  F = move_ctor_cb E this \/ F = move_assign_cb E this ->
  cb_changes_only L p F.
Proof.
  intros Ht Hp HF T f P Hf HP.
  destruct HF as [-> | ->]; unfold move_ctor_cb, move_assign_cb in Hf;
    repeat match type of Hf with
           | context [if ?b then _ else _] => destruct b
           end; simpl in Hf; try discriminate Hf; injection Hf as <-;
    try apply co_ret; by apply (co_move_construct L this p).
Qed.

Lemma co_discard {A} L (m : M (Ty := Ty) (V := V) A) :
  changes_only L m -> changes_only L (discard m).
Proof. intros Hm. unfold discard. apply co_bind; [done | intros; co]. Qed.

(** X12: whatever the store, an operation that returns has changed no
    container but the one it was called on and, for the move constructor
    and move assignment, the one moved from.  So the copy constructor and
    copy assignment leave their source as it was, and the observers,
    [operator->] and a visit that only records change no container. *)
Theorem X12_operations_change_only_their_containers NDEBUG op :
  changes_only (footprint op) (exec E Base Derived NDEBUG op).
Proof.
  assert (H1 : forall a : nat, a ∈ [a]) by (intros; by left).
  assert (H2 : forall a b : nat, a ∈ [a; b]) by (intros; by left).
  assert (H3 : forall a b : nat, b ∈ [a; b]) by (intros; right; by left).
  destruct op; simpl.
  - by apply co_alloc.
  - unfold Poly_copy. destruct (H.all_copyable E Derived); [| co].
    apply co_bind; [apply co_get_id | intros k].
    apply co_bind; [by apply co_alloc | intros _].
    apply co_visit. apply (co_copy_cb _ this); [done | by left].
  - unfold Poly_move. destruct (H.all_movable E Derived); [| co].
    apply co_bind; [apply co_get_id | intros k].
    apply co_bind; [by apply co_alloc | intros _].
    apply co_bind; [| intros _; by apply co_destroySelf].
    apply co_visit. apply (co_move_cb _ this); [done | done | by left].
  - unfold Poly_const_U.
    destruct (_ && _); [| co]. destruct (ID Base Derived U); [| co].
    destruct (negb _); [| co].
    apply co_bind; [by apply co_alloc | intros; by apply co_placement_new].
  - unfold Poly_rvalue_U.
    destruct (_ && _); [| co]. destruct (ID Base Derived U); [| co].
    destruct (negb _); [| co].
    apply co_bind; [by apply co_alloc | intros; by apply co_placement_new].
  - unfold Poly_dtor.
    apply co_bind; [by apply co_destroySelf | intros; by apply co_dealloc].
  - unfold assign_copy. destruct (H.all_copyable E Derived); [| co].
    apply co_bind; [by apply co_destroySelf | intros _].
    apply co_bind; [apply co_get_id | intros k].
    apply co_bind; [by apply co_set_id | intros _].
    apply co_visit. apply (co_copy_cb _ this); [done | by right].
  - unfold assign_move. destruct (H.all_movable E Derived); [| co].
    apply co_bind; [by apply co_destroySelf | intros _].
    apply co_bind; [apply co_get_id | intros k].
    apply co_bind; [by apply co_set_id | intros _].
    apply co_bind; [| intros _; by apply co_destroySelf].
    apply co_visit. apply (co_move_cb _ this); [done | done | by right].
  - unfold assign_const_U.
    destruct (_ && _); [| co]. destruct (ID Base Derived U); [| co].
    destruct (negb _); [| co].
    apply co_bind; [by apply co_destroySelf | intros _].
    apply co_bind; [by apply co_set_id | intros; by apply co_placement_new].
  - unfold assign_rvalue_U.
    destruct (_ && _); [| co]. destruct (ID Base Derived U); [| co].
    destruct (negb _); [| co].
    apply co_bind; [by apply co_destroySelf | intros _].
    apply co_bind; [by apply co_set_id | intros; by apply co_placement_new].
  - apply co_visit. intros T f P [= <-] HP. apply co_emit.
  - apply co_discard. unfold operator_arrow, holdsAny, POLY_ASSERT, getPtr.
    apply co_bind; [apply co_bind; [apply co_get_id | intros; co] |].
    intros h. apply co_bind; [co |].
    intros _. apply co_bind; [apply co_get_id | intros; co].
  - by apply co_destroySelf.
  - apply co_discard. unfold holdsType.
    destruct (H.matches_any _ _); [| co].
    destruct (ID Base Derived T); [| co].
    apply co_bind; [apply co_get_id | intros; co].
  - apply co_discard. unfold holdsAny.
    apply co_bind; [apply co_get_id | intros; co].
  - apply co_discard. unfold isEmpty.
    apply co_bind; [apply co_get_id | intros; co].
Qed.
End Frame.

(** * Dispatch on any tag value *)

Section DispatchTotal.
Context {Ty : Type} `{EqDecision Ty} {V : Type}.
Variable Base : Ty.
Variable Derived : list Ty.
Implicit Types (s : State (Ty := Ty) (V := V)) (T : Ty).
Implicit Types (this : nat) (F : Callback (Ty := Ty) (V := V)).

Lemma visit__miss cst TT F this s r :
  heap s !! this = Some r ->
  (forall T, T ∈ TT -> is_Some (ID Base Derived T) /\ is_Some (F T)) ->
  (forall T, T ∈ TT -> ID Base Derived T <> Some (id_ r)) ->
  visit_ Base Derived cst TT F this s = Ok tt s.
Proof.
  intros Hr Hall Hmiss. induction TT as [|T0 TT IH]; [done |].
  simpl. destruct (Hall T0) as [[k0 Hk0] [f0 Hf0]]; [by left |].
  rewrite Hk0, Hf0. unfold bind. rewrite (get_id_ok _ _ _ Hr).
  destruct (Nat.eqb_spec k0 (id_ r)) as [-> | Hne]; simpl.
  - exfalso. by apply (Hmiss T0); [left |].
  - apply IH; intros T HT; [apply Hall | apply Hmiss]; by right.
Qed.

(** X13: the scan of [visit] calls the visitor only for a tag that is the
    tag of a type of the pack; for any other tag value, 0 or one that no
    type has, it runs off the end of the pack and returns without a call,
    the store unchanged. *)
Theorem X13_visit_without_a_match_calls_nothing cst F this s r :
  instantiates Base Derived (types Base Derived) F = true ->
  heap s !! this = Some r ->
  (forall T, ID Base Derived T <> Some (id_ r)) ->
  visit Base Derived cst F this s = Ok tt s.
Proof.
  intros Hinst Hr Hmiss. unfold visit. rewrite Hinst.
  unfold isEmpty, bind. rewrite (get_id_ok _ _ _ Hr).
  destruct (id_ r =? 0); [done |].
  apply (visit__miss cst _ F this s r Hr); [| by intros].
  by apply instantiates_spec.
Qed.
End DispatchTotal.

(** * The example program *)

(** X14: [main] of the example, for any payload values and any classes
    that are as the example declares them (abstract [MyBase], concrete,
    copyable and movable [Meower] and [Woofer]), with or without
    assertions: it runs to its end without a failed assertion, prints
    Meow, Woof, Meow, Woof, destroys each of the five payloads it
    constructed, never constructs over a live payload, and leaves no
    container behind. *)
Theorem X14_main_runs_to_completion {V : Type} (E : TypeEnv DriverTy V)
    (NDEBUG : bool) (meower_tmp woofer_tmp M_val : V) :
  driver_classes_ok E = true ->
  exists s',
    main E NDEBUG meower_tmp woofer_tmp M_val (mkState ∅ [])
    = Ok [Meower; Woofer; Meower; Woofer] s' /\
    heap s' = ∅ /\
    constructions (trace s') = 5 /\
    destructions (trace s') = 5 /\
    no_overwrite (trace s') = true.
Proof.
  intros Hok. destruct E as [abs cc ca mc ma cp mvc].
  unfold driver_classes_ok, H.copyable, H.movable in Hok. simpl in Hok.
  destruct (abs MyBase) eqn:HaB; simpl in Hok; [| discriminate Hok].
  destruct (abs Meower) eqn:HaM; simpl in Hok; [discriminate Hok |].
  destruct (abs Woofer) eqn:HaW; simpl in Hok; [discriminate Hok |].
  destruct (cc Meower) eqn:HccM; simpl in Hok; [| discriminate Hok].
  destruct (ca Meower) eqn:HcaM; simpl in Hok; [| discriminate Hok].
  destruct (cc Woofer) eqn:HccW; simpl in Hok; [| discriminate Hok].
  destruct (ca Woofer) eqn:HcaW; simpl in Hok; [| discriminate Hok].
  destruct (mc Meower) eqn:HmcM; simpl in Hok; [| discriminate Hok].
  destruct (ma Meower) eqn:HmaM; simpl in Hok; [| discriminate Hok].
  destruct (mc Woofer) eqn:HmcW; simpl in Hok; [| discriminate Hok].
  destruct (ma Woofer) eqn:HmaW; simpl in Hok; [| discriminate Hok].
  vm_compute.
  rewrite ?HaB, ?HaM, ?HaW, ?HccM, ?HcaM, ?HccW, ?HcaW, ?HmcM, ?HmaM,
    ?HmcW, ?HmaW.
  destruct NDEBUG; (eexists; split; [reflexivity | by repeat split]).
Qed.

(** * The further properties on the two instantiations *)

Lemma one_meower_rep_ok :
  rep_ok MyEnv MyBase [Meower; Woofer] (mkPoly (Some (Meower, 7)) 2).
Proof. split; reflexivity. Defined.

Lemma Woofer_in_pack : Woofer ∈ types MyBase [Meower; Woofer].
Proof. unfold types. rewrite !elem_of_cons. by right; right; left. Defined.

Lemma X1_witness :
  NoDup (types MyBase [Meower; Woofer]) /\
  heap one_meower !! 1 = Some (mkPoly (Some (Meower, 7)) 2) /\
  rep_ok MyEnv MyBase [Meower; Woofer] (mkPoly (Some (Meower, 7)) 2) /\
  exists s1,
    erase MyBase [Meower; Woofer] 1 one_meower = Ok tt s1 /\
    isEmpty 1 s1 = Ok true s1 /\
    trace s1 = [EvDestroy 1 Meower 7; EvSetTag 1 0].
Proof.
  split; [exact MyPoly_distinct |]. split; [reflexivity |].
  split; [exact one_meower_rep_ok |].
  destruct (X1_erase_empties_once MyEnv MyBase [Meower; Woofer] 1 _
              one_meower MyPoly_distinct eq_refl one_meower_rep_ok)
    as (s1 & Hrun & Hemp & _ & _ & Htr & _).
  exists s1. by repeat split.
Defined.

Lemma X2_witness :
  NoDup (types MyBase [Meower; Woofer]) /\
  heap one_meower !! 2 = None /\
  exists s',
    Poly_default 2 one_meower = Ok tt s' /\
    isEmpty 2 s' = Ok true s' /\
    holdsType MyBase [Meower; Woofer] Woofer 2 s' = Ok false s'.
Proof.
  split; [exact MyPoly_distinct |]. split; [reflexivity |].
  destruct (X2_default_constructed_is_empty MyBase [Meower; Woofer] 2
              one_meower MyPoly_distinct eq_refl)
    as (s' & Hrun & Hemp & _ & Hty & _).
  exists s'. split; [done |]. split; [done |].
  exact (Hty Woofer Woofer_in_pack).
Defined.

Lemma X3_witness :
  heap one_meower !! 1 = Some (mkPoly (Some (Meower, 7)) 2) /\
  exists b,
    isEmpty 1 one_meower = Ok b one_meower /\
    holdsAny 1 one_meower = Ok (negb b) one_meower.
Proof.
  split; [reflexivity |].
  exact (proj1 (X3_observers_agree MyBase [Meower; Woofer] 1 _ one_meower
                  eq_refl)).
Defined.

Lemma X4_witness :
  NoDup (types MyBase [Meower; Woofer]) /\
  Woofer ∈ types MyBase [Meower; Woofer] /\
  is_abstract MyEnv Woofer = false /\
  heap one_meower !! 2 = None /\
  exists s',
    Poly_rvalue_U MyEnv MyBase [Meower; Woofer] 2 Woofer 4 one_meower
    = Ok tt s' /\
    holdsType MyBase [Meower; Woofer] Woofer 2 s' = Ok true s'.
Proof.
  split; [exact MyPoly_distinct |]. split; [exact Woofer_in_pack |].
  split; [reflexivity |]. split; [reflexivity |].
  destruct (X4_value_construction_holds_that_type MyEnv MyBase
              [Meower; Woofer] 2 Woofer 4 one_meower MyPoly_distinct
              Woofer_in_pack eq_refl eq_refl) as [_ Hmove].
  destruct (Hmove eq_refl) as (s' & Hrun & _ & _ & Hty & _).
  by exists s'.
Defined.

Lemma X5_witness :
  is_abstract MyEnv MyBase = true /\
  forall s',
    assign_move MyEnv MyBase [Meower; Woofer] 1 2 meower_and_woofer
    <> Ok tt s'.
Proof.
  split; [reflexivity |]. intros s'.
  exact (proj1 (proj2 (X5_abstract_base_excludes_assignment MyEnv MyBase
                         [Meower; Woofer] 3 1 2 meower_and_woofer s'
                         eq_refl))).
Defined.

Lemma X6_witness :
  NoDup (types MyBase [Meower; Woofer]) /\
  Poly_const_U MyEnv MyBase [Meower; Woofer] 2 MyBase 0 one_meower
  = Fail IllFormed.
Proof.
  split; [exact MyPoly_distinct |].
  apply (proj1 (X6_compile_time_rejections MyEnv MyBase [Meower; Woofer]
                  2 MyBase 0 one_meower MyPoly_distinct)).
  right. by left.
Defined.

Lemma X7_witness :
  heap one_empty !! 1 = Some (mkPoly None 0) /\
  operator_arrow (V := nat) MyBase true false 1 one_empty
  = Ok (mkPtr MyBase None false) one_empty.
Proof.
  split; [reflexivity |].
  exact (X7_arrow_without_assertions MyBase false 1 _ one_empty eq_refl).
Defined.

Lemma X9_witness :
  NoDup (types MyBase [Meower; Woofer]) /\
  Woofer ∈ types MyBase [Meower; Woofer] /\
  H.copyable MyEnv Woofer = true /\
  is_abstract MyEnv Woofer = false /\
  heap one_meower !! 2 = None /\
  exists s1 s2,
    Poly_const_U MyEnv MyBase [Meower; Woofer] 2 Woofer 4 one_meower
    = Ok tt s1 /\
    Poly_dtor MyBase [Meower; Woofer] 2 s1 = Ok tt s2 /\
    heap s2 = heap one_meower.
Proof.
  split; [exact MyPoly_distinct |]. split; [exact Woofer_in_pack |].
  split; [reflexivity |]. split; [reflexivity |]. split; [reflexivity |].
  destruct (X9_construct_then_destroy MyEnv MyBase [Meower; Woofer] 2
              Woofer 4 one_meower MyPoly_distinct Woofer_in_pack eq_refl
              eq_refl eq_refl)
    as (s1 & s2 & k & _ & Hc & Hd & Hh & _).
  by exists s1, s2.
Defined.

Lemma X10_witness :
  NoDup (types MyBase [Meower; Woofer]) /\
  H.all_copyable MyEnv [Meower; Woofer] = true /\
  2 <> 1 /\
  empty_at one_empty 1 /\
  exists s',
    Poly_copy MyEnv MyBase [Meower; Woofer] 2 1 one_empty = Ok tt s' /\
    empty_at s' 2 /\ empty_at s' 1.
Proof.
  split; [exact MyPoly_distinct |]. split; [reflexivity |].
  split; [discriminate |]. split; [reflexivity |].
  destruct (X10_copy_of_empty MyEnv MyBase [Meower; Woofer] 2 1 one_empty
              MyPoly_distinct eq_refl ltac:(discriminate) eq_refl)
    as [Hctor _].
  destruct (Hctor eq_refl eq_refl) as (s' & Hrun & H2 & H1 & _).
  by exists s'.
Defined.

Lemma X13_witness :
  instantiates (V := nat) MyBase [Meower; Woofer]
    (types MyBase [Meower; Woofer]) probe = true /\
  heap stray_tag !! 1 = Some (mkPoly (Some (Meower, 7)) 9) /\
  visit MyBase [Meower; Woofer] false probe 1 stray_tag = Ok tt stray_tag.
Proof.
  assert (Hi : instantiates (V := nat) MyBase [Meower; Woofer]
                 (types MyBase [Meower; Woofer]) probe = true)
    by reflexivity.
  assert (Hr : heap stray_tag !! 1 = Some (mkPoly (Some (Meower, 7)) 9))
    by reflexivity.
  split; [exact Hi |]. split; [exact Hr |].
  apply (X13_visit_without_a_match_calls_nothing MyBase [Meower; Woofer]
           false probe 1 stray_tag (mkPoly (Some (Meower, 7)) 9) Hi Hr).
  intros T HT. apply ID_range in HT. simpl in HT. lia.
Defined.

Lemma X14_witness :
  driver_classes_ok MyEnv = true /\
  exists s',
    main MyEnv false 7 4 9 (mkState ∅ [])
    = Ok [Meower; Woofer; Meower; Woofer] s' /\
    heap s' = ∅.
Proof.
  split; [reflexivity |].
  destruct (X14_main_runs_to_completion MyEnv false 7 4 9 eq_refl)
    as (s' & Hrun & Hheap & _).
  exists s'. split; [exact Hrun | exact Hheap].
Defined.
